(** * Task distribution engine and assignment store

    A shallow embedding of [backend/utils/distributionEngine.js],
    of the record-status and deletion handlers of
    [backend/controllers/distributionController.js] and of the [save]
    hook of [backend/models/Distribution.js].

    Conventions of the embedding.
    - JavaScript numbers that are counts or indices are [nat]; the agent
      counters [assignedTasks] and [completedTasks], which [$inc] may
      drive below zero, are [Z]; scores and weights are exact rationals
      [Q] (the rounding error of binary floating point is not modelled);
      the fairness score, which takes a square root, is a real number.
    - [new Date()] and [Date.now()] read a [Clock] passed as an argument.
    - A thrown exception or rejected promise is the [Rejected] outcome. *)

From Stdlib Require Import ZArith QArith Qround Qminmax Reals Psatz.
From Stdlib Require Import Sorting.Sorted Permutation.
From stdpp Require Import gmap strings list sorting.

Local Open Scope string_scope.
Local Open Scope list_scope.
Local Open Scope nat_scope.

(** ** Data model *)

Definition ObjectId := nat.
Definition Time := Z.

Inductive Status := pending | in_progress | completed | failed.

#[global] Instance Status_eq_dec : EqDecision Status.
Proof. solve_decision. Defined.

(** A normalized row as the file processor hands it to the engine.
    [notes] is optional: the engine reads it as [(a.notes || '')]. *)
Record InputRecord := mkInput {
  in_firstName : string;
  in_phone : string;
  in_notes : option string
}.

(** A record inside an agent group. [completedAt = None] is an absent
    field, [redistributed = false] likewise. *)
Record Rec := mkRec {
  firstName : string;
  phone : string;
  notes : option string;
  status : Status;
  assignedAt : Time;
  completedAt : option Time;
  redistributed : bool
}.

(** A user document of role agent. *)
Record Agent := mkAgent {
  _id : ObjectId;
  name : string;
  email : string;
  isActive : bool;
  assignedTasks : Z;
  completedTasks : Z
}.

(** One agent's share of a distribution. [weight] is only present in
    the output of the weighted strategy. *)
Record Group := mkGroup {
  agentId : ObjectId;
  agentName : string;
  agentEmail : string;
  assignedCount : nat;
  weight : option Q;
  records : list Rec
}.

Record Clock := mkClock {
  startTime : Time;   (* Date.now() on entry of distribute *)
  stamp : Time;       (* new Date() while records are assigned *)
  endTime : Time      (* Date.now() after the strategy has run *)
}.

(** ** Array helpers *)

(** [Array.prototype.slice(from, to)] for [0 <= from <= to]. *)
Definition slice {A} (from to : nat) (l : list A) : list A :=
  take (to - from) (drop from l).

(** [{...record, status: 'pending', assignedAt: new Date()}] *)
Definition assign (now : Time) (r : InputRecord) : Rec :=
  {| firstName := in_firstName r; phone := in_phone r; notes := in_notes r;
     status := pending; assignedAt := now; completedAt := None;
     redistributed := false |}.

(** ** Equal strategy *)

(** The body of the [for] loop of [equalDistribution]: [i] is the loop
    index, [agents] the agents from index [i] on, [recordIndex] the
    running offset. *)
Fixpoint equalLoop (now : Time) (records : list InputRecord)
    (recordsPerAgent remainingRecords : nat)
    (i : nat) (agents : list Agent) (recordIndex : nat) : list Group :=
  match agents with
  | [] => []
  | agent :: rest =>
      let assignCount := recordsPerAgent + (if i <? remainingRecords then 1 else 0) in
      let agentRecords := slice recordIndex (recordIndex + assignCount) records in
      {| agentId := _id agent; agentName := name agent; agentEmail := email agent;
         assignedCount := assignCount; weight := None;
         records := map (assign now) agentRecords |}
      :: equalLoop now records recordsPerAgent remainingRecords
           (S i) rest (recordIndex + assignCount)
  end.

Definition equalDistribution (now : Time) (records : list InputRecord)
    (agents : list Agent) : list Group :=
  let agentsCount := length agents in
  let recordsPerAgent := length records / agentsCount in
  let remainingRecords := length records mod agentsCount in
  equalLoop now records recordsPerAgent remainingRecords 0 agents 0.

(** ** Numbers *)

(** A count or counter read as a JavaScript number. *)
Definition num (z : Z) : Q := inject_Z z.
Definition numN (n : nat) : Q := inject_Z (Z.of_nat n).

(** [Math.round]: the nearest integer, halves rounded up. *)
Definition Math_round (x : Q) : Z := Qfloor (x + (1 # 2)).

(** ** Array.prototype.sort

    The sort is stable. [cmp a b > 0] asks for [a] to be placed after
    [b]; an element is therefore inserted behind exactly those elements
    of the sorted tail it must follow, which keeps elements that compare
    equal in their original order. *)
Section JsSort.
Context {A : Type} (cmp : A → A → Q).

Definition placedAfter (x y : A) : bool := negb (Qle_bool (cmp x y) 0).

Fixpoint sortInsert (x : A) (l : list A) : list A :=
  match l with
  | [] => [x]
  | y :: ys => if placedAfter x y then y :: sortInsert x ys else x :: y :: ys
  end.

Definition js_sort (l : list A) : list A := foldr sortInsert [] l.
End JsSort.

(** Descending by [key]: every element is followed only by elements
    of a key that is not larger. *)
Definition descending {A} (key : A → Q) : list A → Prop :=
  StronglySorted (λ a b, (key b <= key a)%Q).

(** ** Scores and weights *)

(** Calculate agent performance score (0-1) *)
Definition calculateAgentPerformance (agent : Agent) : Q :=
  if (assignedTasks agent =? 0)%Z then 7 # 10
  else
    let completionRate := (num (completedTasks agent) / num (assignedTasks agent))%Q in
    let experienceFactor := Qmin 1 (num (assignedTasks agent) / 100)%Q in
    (completionRate * (7 # 10) + experienceFactor * (3 # 10))%Q.

(** Calculate workload factor (0-1, higher is better) *)
Definition calculateWorkloadFactor (agent : Agent) : Q :=
  let pendingTasks := (assignedTasks agent - completedTasks agent)%Z in
  if (pendingTasks <=? 0)%Z then 1
  else if (50 <=? pendingTasks)%Z then 1 # 10
  else Qmax (1 # 10) (1 - num pendingTasks / 50)%Q.

Record AgentWeight := mkAgentWeight {
  aw_agentId : ObjectId;
  aw_weight : Q;
  aw_performance : Q;
  aw_workloadFactor : Q
}.

Definition weigh (agent : Agent) : AgentWeight :=
  let performance := calculateAgentPerformance agent in
  let workloadFactor := calculateWorkloadFactor agent in
  let weight := Qmax (1 # 10) (performance * workloadFactor)%Q in
  {| aw_agentId := _id agent; aw_weight := weight;
     aw_performance := performance; aw_workloadFactor := workloadFactor |}.

Definition calculateAgentWeights (agents : list Agent) : list AgentWeight :=
  js_sort (λ a b, aw_weight b - aw_weight a)%Q (map weigh agents).

(** ** Weighted strategy *)

Definition totalWeightOf (agentWeights : list AgentWeight) : Q :=
  fold_left (λ sum w, sum + aw_weight w)%Q agentWeights 0%Q.

(** The share computed for one agent: [Math.round(records.length * proportion)],
    a count; the rounded value is never negative, see [shareOf_round]. *)
Definition shareOf (total : nat) (totalWeight : Q) (w : AgentWeight) : nat :=
  let proportion := (aw_weight w / totalWeight)%Q in
  Z.to_nat (Math_round (numN total * proportion)%Q).

(** The [for ... of agentWeights] loop; the result carries the final
    [recordIndex]. [None] stands for the [TypeError] raised when
    [agents.find] yields [undefined]. *)
Fixpoint weightedLoop (now : Time) (records : list InputRecord) (agents : list Agent)
    (totalWeight : Q) (agentWeights : list AgentWeight) (recordIndex : nat)
    : option (list Group * nat) :=
  match agentWeights with
  | [] => Some ([], recordIndex)
  | agentWeight :: rest =>
      agent ← List.find (λ a, _id a =? aw_agentId agentWeight) agents;
      let assignCount := shareOf (length records) totalWeight agentWeight in
      let agentRecords := slice recordIndex (recordIndex + assignCount) records in
      '(groups, final) ← weightedLoop now records agents totalWeight rest
                            (recordIndex + assignCount);
      Some ({| agentId := _id agent; agentName := name agent; agentEmail := email agent;
               assignedCount := assignCount; weight := Some (aw_weight agentWeight);
               records := map (assign now) agentRecords |} :: groups, final)
  end.

(** [topPerformer.records.push(...); topPerformer.assignedCount += ...] *)
Definition giveRemaining (extra : list Rec) (topPerformer : Group) : Group :=
  {| agentId := agentId topPerformer; agentName := agentName topPerformer;
     agentEmail := agentEmail topPerformer;
     assignedCount := assignedCount topPerformer + length extra;
     weight := weight topPerformer;
     records := records topPerformer ++ extra |}.

Definition weightedDistribution (now : Time) (records : list InputRecord)
    (agents : list Agent) : option (list Group) :=
  let agentWeights := calculateAgentWeights agents in
  let totalWeight := totalWeightOf agentWeights in
  '(distributedAgents, recordIndex) ←
      weightedLoop now records agents totalWeight agentWeights 0;
  if recordIndex <? length records then
    let remainingRecords := drop recordIndex records in
    match distributedAgents with
    | [] => None
    | topPerformer :: others =>
        Some (giveRemaining (map (assign now) remainingRecords) topPerformer :: others)
    end
  else Some distributedAgents.

(** ** Round-robin hand-out

    The loop shared by [priorityDistribution] and [redistributeTasks]:
    [agent = groups[agentIndex]; push; agentIndex = (agentIndex + 1) %
    groups.length]. [None] stands for the [TypeError] raised on
    [groups[agentIndex]] being [undefined]. *)
Section RoundRobin.
Context {G T : Type} (push : T → G → G).

Fixpoint roundRobin (tasks : list T) (groups : list G) (agentIndex : nat)
    : option (list G) :=
  match tasks with
  | [] => Some groups
  | task :: rest =>
      agent ← groups !! agentIndex;
      roundRobin rest (<[agentIndex := push task agent]> groups)
                 ((agentIndex + 1) mod length groups)
  end.
End RoundRobin.

(** ** Priority strategy *)

Definition complexity (r : InputRecord) : nat :=
  String.length (default "" (in_notes r)).

(** [agent.records.push(r); agent.assignedCount++] *)
Definition pushRecord (r : Rec) (agent : Group) : Group :=
  {| agentId := agentId agent; agentName := agentName agent;
     agentEmail := agentEmail agent;
     assignedCount := S (assignedCount agent);
     weight := weight agent;
     records := records agent ++ [r] |}.

Definition emptyGroup (agent : Agent) : Group :=
  {| agentId := _id agent; agentName := name agent; agentEmail := email agent;
     assignedCount := 0; weight := None; records := [] |}.

Definition sortRecords (records : list InputRecord) : list InputRecord :=
  js_sort (λ a b, numN (complexity b) - numN (complexity a))%Q records.

Definition sortAgents (agents : list Agent) : list Agent :=
  js_sort (λ a b, calculateAgentPerformance b - calculateAgentPerformance a)%Q agents.

Definition priorityDistribution (now : Time) (records : list InputRecord)
    (agents : list Agent) : option (list Group) :=
  let sortedRecords := sortRecords records in
  let sortedAgents := sortAgents agents in
  let distributedAgents := map emptyGroup sortedAgents in
  roundRobin (λ record, pushRecord (assign now record))
             sortedRecords distributedAgents 0.

(** ** Summary *)

(** [Math.min(...counts)] and [Math.max(...counts)] of a non-empty array.
    (On the empty array JavaScript yields [Infinity] and [-Infinity];
    [distribute] never passes one: a plan has one group per active
    agent, see [runMethod_plan].) *)
Definition Math_min (counts : list nat) : nat := foldr Nat.min (hd 0 counts) counts.
Definition Math_max (counts : list nat) : nat := foldr Nat.max (hd 0 counts) counts.

Definition sumCounts (counts : list nat) : nat := fold_left Nat.add counts 0.

(** Calculate fairness score (0-1, higher is more fair). [None] is
    [NaN], the value of [0 / 0] when every count is zero. *)
Definition calculateFairnessScore (agentCounts : list nat) : option R :=
  if length agentCounts <=? 1 then Some 1%R
  else if sumCounts agentCounts =? 0 then None
  else
    let avg := (INR (sumCounts agentCounts) / INR (length agentCounts))%R in
    let variance :=
      (fold_left (λ sum count, sum + (INR count - avg) ^ 2) agentCounts 0
       / INR (length agentCounts))%R in
    let standardDeviation := sqrt variance in
    Some (Rmax 0 (1 - standardDeviation / avg)).

Record Summary := mkSummary {
  totalAgentsAssigned : nat;
  totalRecordsDistributed : nat;
  averageRecordsPerAgent : Q;
  minRecordsAssigned : nat;
  maxRecordsAssigned : nat;
  distributionVariance : nat;
  distributionTime : Z;
  fairnessScore : option R
}.

Definition generateSummary (distributedAgents : list Group) (totalRecords : nat)
    (distributionTime : Z) : Summary :=
  let agentCounts := map assignedCount distributedAgents in
  let minAssigned := Math_min agentCounts in
  let maxAssigned := Math_max agentCounts in
  let avgAssigned := (numN totalRecords / numN (length distributedAgents))%Q in
  {| totalAgentsAssigned := length distributedAgents;
     totalRecordsDistributed := totalRecords;
     averageRecordsPerAgent := (num (Math_round (avgAssigned * 100)) / 100)%Q;
     minRecordsAssigned := minAssigned;
     maxRecordsAssigned := maxAssigned;
     distributionVariance := maxAssigned - minAssigned;
     distributionTime := distributionTime;
     fairnessScore := calculateFairnessScore agentCounts |}.

(** ** distribute *)

Inductive JsError :=
  | Error (message : string)
  | TypeError.

Inductive Promise (A : Type) :=
  | Resolved (value : A)
  | Rejected (reason : JsError).
Arguments Resolved {A} value.
Arguments Rejected {A} reason.

Inductive Method := equal | weighted | priority.

(** The value of [this.strategies[strategy]]. The table is a plain
    object literal, so a name that is not one of its three own keys is
    looked up on [Object.prototype]. *)
Inductive Property :=
  | Own (method : Method)
  | Inherited (key : string)
  | Undefined.

Definition Object_prototype_keys : list string :=
  [ "constructor"; "toString"; "toLocaleString"; "valueOf"; "hasOwnProperty";
    "isPrototypeOf"; "propertyIsEnumerable"; "__proto__";
    "__defineGetter__"; "__defineSetter__"; "__lookupGetter__"; "__lookupSetter__" ].

Definition strategies (strategy : string) : Property :=
  if String.eqb strategy "equal" then Own equal
  else if String.eqb strategy "weighted" then Own weighted
  else if String.eqb strategy "priority" then Own priority
  else if existsb (String.eqb strategy) Object_prototype_keys then Inherited strategy
  else Undefined.

(** What [distribute] resolves to. [Unassigned] is the object built
    when the selected function is the global [Object]: [Object(records)]
    is the record array itself, which then stands where the groups
    should be, with [NaN] counts in its summary. *)
Inductive Distributed :=
  | Plan (agents : list Group) (summary : Summary) (strategy : string)
         (distributionTime : Z)
  | Unassigned (agents : list InputRecord) (strategy : string) (distributionTime : Z).

Definition runMethod (method : Method) (now : Time) (records : list InputRecord)
    (activeAgents : list Agent) : option (list Group) :=
  match method with
  | equal => Some (equalDistribution now records activeAgents)
  | weighted => weightedDistribution now records activeAgents
  | priority => priorityDistribution now records activeAgents
  end.

Definition finish (clock : Clock) (records : list InputRecord) (strategy : string)
    (distributedData : option (list Group)) : Promise Distributed :=
  match distributedData with
  | None => Rejected TypeError
  | Some groups =>
      let distributionTime := (endTime clock - startTime clock)%Z in
      Resolved (Plan groups
                     (generateSummary groups (length records) distributionTime)
                     strategy distributionTime)
  end.

(** Main distribution method. [records] and [agents] are [None] when
    the caller passes [null] or [undefined]. *)
Definition distribute (clock : Clock) (records : option (list InputRecord))
    (agents : option (list Agent)) (strategy : string) : Promise Distributed :=
  match records with
  | None | Some [] => Rejected (Error "No records to distribute")
  | Some records =>
      match agents with
      | None | Some [] => Rejected (Error "No agents available for distribution")
      | Some agents =>
          let activeAgents := List.filter isActive agents in
          match activeAgents with
          | [] => Rejected (Error "No active agents available")
          | _ =>
              match strategies strategy with
              | Own method =>
                  finish clock records strategy
                         (runMethod method (stamp clock) records activeAgents)
              | Undefined =>
                  finish clock records strategy
                         (runMethod equal (stamp clock) records activeAgents)
              | Inherited key =>
                  (* [Object(records, ...)] returns its first argument; every
                     other member of [Object.prototype], called without a
                     receiver, throws or returns a value on which
                     [generateSummary] throws. *)
                  if String.eqb key "constructor"
                  then Resolved (Unassigned records strategy
                                   (endTime clock - startTime clock)%Z)
                  else Rejected TypeError
              end
          end
      end
  end.

(** ** Sample data *)

Definition row (n : string) (note : string) : InputRecord :=
  {| in_firstName := n; in_phone := "+10000000000"; in_notes := Some note |}.

Definition freshAgent (id : ObjectId) (n : string) : Agent :=
  {| _id := id; name := n; email := n; isActive := true;
     assignedTasks := 0; completedTasks := 0 |}.

Definition tenRows : list InputRecord :=
  [ row "r0" "a"; row "r1" "bb"; row "r2" ""; row "r3" "cccc"; row "r4" "dd";
    row "r5" "e"; row "r6" "ffffff"; row "r7" "g"; row "r8" "hh"; row "r9" "iii" ].

Definition threeAgents : list Agent :=
  [ freshAgent 1 "ann"; freshAgent 2 "bob"; freshAgent 3 "cy" ].

Definition clock0 : Clock := {| startTime := 100%Z; stamp := 101%Z; endTime := 105%Z |}.

(** ** Closed forms used in the statements *)

(** Equal strategy: the share of the agent at index [i], the offset of
    its slice, and the group it receives; [n] is the quotient and [r] the
    remainder of the number of records by the number of agents. *)
Definition equalShare (n r i : nat) : nat := n + (if i <? r then 1 else 0).
Definition equalOffset (n r i : nat) : nat := i * n + Nat.min i r.

Definition equalGroup (now : Time) (input : list InputRecord) (n r i : nat)
    (agent : Agent) : Group :=
  {| agentId := _id agent; agentName := name agent; agentEmail := email agent;
     assignedCount := equalShare n r i; weight := None;
     records := map (assign now)
                    (slice (equalOffset n r i) (equalOffset n r (S i)) input) |}.

(** Round robin over [k] groups: the tasks, in order, whose turn falls
    on the group at index [j], when [m] tasks were handed out before the
    first of [tasks]. *)
Fixpoint deal {T} (k j m : nat) (tasks : list T) : list T :=
  match tasks with
  | [] => []
  | task :: rest =>
      if m mod k =? j then task :: deal k j (S m) rest else deal k j (S m) rest
  end.

Definition pushAll {G T} (push : T → G → G) (tasks : list T) (g : G) : G :=
  foldl (λ g task, push task g) g tasks.

(** The partition property of an assignment plan: the groups' records,
    taken together, are the tagged input records, each exactly once;
    the counts add up to the number of input records; every count is
    the length of its group's record list. *)
Definition partitions (now : Time) (input : list InputRecord)
    (groups : list Group) : Prop :=
  concat (map records groups) ≡ₚ map (assign now) input
  ∧ sum_list (map assignedCount groups) = length input
  ∧ Forall (λ g, assignedCount g = length (records g)) groups.

(** Priority strategy: the group of the agent at index [j] of the
    sorted agents, out of [k], for the sorted records. *)
Definition priorityGroup (now : Time) (sortedRecords : list InputRecord)
    (k j : nat) (agent : Agent) : Group :=
  {| agentId := _id agent; agentName := name agent; agentEmail := email agent;
     assignedCount := length (deal k j 0 sortedRecords); weight := None;
     records := map (assign now) (deal k j 0 sortedRecords) |}.

(** Weighted strategy: the offset at which the share of the [i]-th
    weight starts, the sum of the shares before it. *)
Definition weightedOffset (total : nat) (totalWeight : Q)
    (agentWeights : list AgentWeight) (i : nat) : nat :=
  sum_list (map (shareOf total totalWeight) (take i agentWeights)).

Definition agentOf (agents : list Agent) (w : AgentWeight) : option Agent :=
  List.find (λ a, _id a =? aw_agentId w) agents.

(** ** Statistics, as the summary is specified

    Mean and (population) standard deviation of the per-agent counts,
    and the fairness score [max(0, 1 - stddev / mean)] written from
    these, to be compared with [calculateFairnessScore]. *)
Definition Rsum (l : list R) : R := foldr Rplus 0%R l.

Definition mean (counts : list nat) : R :=
  (INR (sum_list counts) / INR (length counts))%R.

Definition stddev (counts : list nat) : R :=
  sqrt (Rsum (map (λ c, (INR c - mean counts) ^ 2)%R counts) / INR (length counts))%R.

Definition fairness_spec (counts : list nat) : R :=
  Rmax 0 (1 - stddev counts / mean counts)%R.

(** The strategy function that runs for a name, when one does: one of
    the three own entries, or [equal] when the lookup is [undefined]. *)
Definition selected (strategy : string) : option Method :=
  match strategies strategy with
  | Own method => Some method
  | Undefined => Some equal
  | Inherited _ => None
  end.

(** A group's weight, when it has one, is at least one tenth. *)
Definition weightFloored (g : Group) : Prop :=
  ∀ q, weight g = Some q → (1 # 10 <= q)%Q.

Definition oneRow : list InputRecord := [ row "r0" "a" ].

Definition twoAgents : list Agent := [ freshAgent 1 "ann"; freshAgent 2 "bob" ].

(** ** The stored Distribution document *)

(** The [summary] sub-document as the schema declares it. The schema
    is strict: fields of the engine's summary that it does not declare
    are dropped when the document is built. *)
Record StoredSummary := mkStoredSummary {
  s_totalAgentsAssigned : nat;
  s_averageRecordsPerAgent : Q;
  s_distributionTime : Z
}.

Record Distribution := mkDistribution {
  fileName : string;
  totalRecords : nat;
  uploadedBy : ObjectId;
  distributionStrategy : string;
  agents : list Group;
  summary : StoredSummary
}.

Definition withAgents (groups : list Group) (d : Distribution) : Distribution :=
  {| fileName := fileName d; totalRecords := totalRecords d;
     uploadedBy := uploadedBy d; distributionStrategy := distributionStrategy d;
     agents := groups; summary := summary d |}.

(** Pre-save middleware to calculate summary *)
Definition preSave (d : Distribution) : Distribution :=
  match agents d with
  | [] => d
  | _ :: _ =>
      {| fileName := fileName d; totalRecords := totalRecords d;
         uploadedBy := uploadedBy d; distributionStrategy := distributionStrategy d;
         agents := agents d;
         summary :=
           {| s_totalAgentsAssigned := length (agents d);
              s_averageRecordsPerAgent :=
                num (Math_round (numN (totalRecords d) / numN (length (agents d))));
              s_distributionTime := s_distributionTime (summary d) |} |}
  end.




(** ** The database *)

Record Db := mkDb {
  users : gmap ObjectId Agent;
  distributions : gmap ObjectId Distribution
}.

(** [User.findByIdAndUpdate(id, { $inc: { assignedTasks: a, completedTasks: c } })];
    nothing happens when no user has the id. *)
Definition incTasks (a c : Z) (u : Agent) : Agent :=
  {| _id := _id u; name := name u; email := email u; isActive := isActive u;
     assignedTasks := assignedTasks u + a; completedTasks := completedTasks u + c |}.

Definition findByIdAndUpdate (id : ObjectId) (a c : Z)
    (us : gmap ObjectId Agent) : gmap ObjectId Agent :=
  alter (incTasks a c) id us.

Inductive Response :=
  | Json (code : nat) (message : string)
  | ValidationError.

(** ** updateRecordStatus *)

(** [String.prototype.trim], the setter of the [notes] path, on ASCII
    white space. *)
Definition isWhiteSpace (c : Ascii.ascii) : bool :=
  let n := Ascii.nat_of_ascii c in ((9 <=? n) && (n <=? 13)) || (n =? 32).

Fixpoint trimStart (s : string) : string :=
  match s with
  | EmptyString => EmptyString
  | String c rest => if isWhiteSpace c then trimStart rest else s
  end.

Definition trim (s : string) : string :=
  String.rev (trimStart (String.rev (trimStart s))).

(** [agents.find(agent => agent.agentId.toString() === user)], with the
    position of the group found. *)
Fixpoint findGroup (user : ObjectId) (groups : list Group) : option (nat * Group) :=
  match groups with
  | [] => None
  | g :: rest =>
      if agentId g =? user then Some (0, g)
      else '(i, found) ← findGroup user rest; Some (S i, found)
  end.

(** [if (notes) record.notes = notes]: the empty string is falsy. *)
Definition newNotes (notes' : option string) (record : Rec) : option string :=
  match notes' with
  | Some (String c rest) => Some (trim (String c rest))
  | _ => notes record
  end.

(** [record.status = status; if (notes) record.notes = notes;
     if (status === 'completed') record.completedAt = new Date()] *)
Definition setStatus (now : Time) (status' : Status) (notes' : option string)
    (record : Rec) : Rec :=
  {| firstName := firstName record; phone := phone record;
     notes := newNotes notes' record;
     status := status';
     assignedAt := assignedAt record;
     completedAt := if decide (status' = completed) then Some now
                    else completedAt record;
     redistributed := redistributed record |}.

Definition withRecords (rs : list Rec) (g : Group) : Group :=
  {| agentId := agentId g; agentName := agentName g; agentEmail := agentEmail g;
     assignedCount := assignedCount g; weight := weight g; records := rs |}.

(** The [maxlength] validator of the [notes] path, run by [save]. *)
Definition notesValid (r : Rec) : bool :=
  match notes r with
  | Some s => String.length s <=? 500
  | None => true
  end.

(** The handler, for the authenticated agent [user] and a record index
    that [parseInt] read as an integer. The pair is the response and the
    database afterwards. A failing [save] throws before the counters
    are touched. (The second [Invalid record index] branch is never
    taken: the index has passed the bounds test.) *)
Definition updateRecordStatus (now : Time) (db : Db) (user : ObjectId)
    (distributionId : ObjectId) (recordIdx : Z) (status' : Status)
    (notes' : option string) : Response * Db :=
  match distributions db !! distributionId with
  | None => (Json 404 "Distribution not found", db)
  | Some distribution =>
      match findGroup user (agents distribution) with
      | None => (Json 403 "You are not assigned to this distribution", db)
      | Some (groupIdx, agentData) =>
          if ((recordIdx <? 0) || (Z.of_nat (length (records agentData)) <=? recordIdx))%Z
          then (Json 400 "Invalid record index", db)
          else
            match records agentData !! Z.to_nat recordIdx with
            | None => (Json 400 "Invalid record index", db)
            | Some record =>
                let oldStatus := status record in
                let record' := setStatus now status' notes' record in
                if negb (notesValid record') then (ValidationError, db)
                else
                  let agentData' :=
                    withRecords (<[Z.to_nat recordIdx := record']> (records agentData))
                                agentData in
                  let saved :=
                    preSave (withAgents (<[groupIdx := agentData']> (agents distribution))
                                        distribution) in
                  let us :=
                    if decide (oldStatus ≠ completed ∧ status' = completed)
                    then findByIdAndUpdate user 0 1 (users db)
                    else if decide (oldStatus = completed ∧ status' ≠ completed)
                    then findByIdAndUpdate user 0 (-1) (users db)
                    else users db in
                  (Json 200 "Record status updated successfully",
                   {| users := us;
                      distributions := <[distributionId := saved]> (distributions db) |})
            end
      end
  end.

(** ** deleteDistribution *)

Definition completedCount (agent : Group) : nat :=
  length (List.filter (λ r, bool_decide (status r = completed)) (records agent)).

Definition releaseAgent (us : gmap ObjectId Agent) (agent : Group)
    : gmap ObjectId Agent :=
  findByIdAndUpdate (agentId agent)
    (- Z.of_nat (assignedCount agent)) (- Z.of_nat (completedCount agent)) us.

(** The handler: [$inc] by the negated counts for every group, then
    [findByIdAndDelete]. *)
Definition deleteDistribution (db : Db) (id : ObjectId) : Response * Db :=
  match distributions db !! id with
  | None => (Json 404 "Distribution not found", db)
  | Some distribution =>
      (Json 200 "Distribution deleted successfully",
       {| users := foldl releaseAgent (users db) (agents distribution);
          distributions := delete id (distributions db) |})
  end.

(** ** redistributeTasks *)

Definition isLive (r : Rec) : bool :=
  match status r with
  | pending | in_progress => true
  | completed | failed => false
  end.

Definition currentLoad (agent : Group) : nat :=
  length (List.filter isLive (records agent)).

(** [{...task, status: 'pending', assignedAt: new Date(), redistributed: true}] *)
Definition reassign (now : Time) (task : Rec) : Rec :=
  {| firstName := firstName task; phone := phone task; notes := notes task;
     status := pending; assignedAt := now; completedAt := completedAt task;
     redistributed := true |}.

(** A group with its [currentLoad] field; the push also bumps
    [assignedCount] and [currentLoad]. *)
Definition pushTask (now : Time) (task : Rec) (target : Group * nat) : Group * nat :=
  (pushRecord (reassign now task) (fst target), S (snd target)).

Definition byLoad (a b : Group * nat) : Q := (numN (snd a) - numN (snd b))%Q.

(** Re-distribute failed or returned tasks. [availableAgents] is not
    read. [None] stands for the [TypeError] raised on a distribution
    without groups. The value modelled is the distribution returned;
    in JavaScript the copies [{...agent, currentLoad}] share their
    [records] arrays with [originalDistribution], whose arrays therefore
    grow as well, while its [assignedCount] fields do not. *)
Definition redistributeTasks (now : Time) (failedTasks : option (list Rec))
    (availableAgents : list Agent) (originalDistribution : Distribution)
    : option Distribution :=
  match failedTasks with
  | None | Some [] => Some originalDistribution
  | Some tasks =>
      let agentWorkloads :=
        js_sort byLoad
          (map (λ agent, (agent, currentLoad agent)) (agents originalDistribution)) in
      groups ← roundRobin (pushTask now) tasks agentWorkloads 0;
      Some (withAgents (map fst groups) originalDistribution)
  end.

(** ** Closed forms of the handlers' writes *)

(** What a successful update writes. *)
Definition updatedDistribution (now : Time) (d : Distribution) (groupIdx : nat)
    (g : Group) (idx : nat) (status' : Status) (notes' : option string)
    (record : Rec) : Distribution :=
  preSave (withAgents
             (<[groupIdx := withRecords (<[idx := setStatus now status' notes' record]>
                                           (records g)) g]> (agents d)) d).

Definition updatedUsers (db : Db) (user : ObjectId) (oldStatus status' : Status)
    : gmap ObjectId Agent :=
  if decide (oldStatus ≠ completed ∧ status' = completed)
  then findByIdAndUpdate user 0 1 (users db)
  else if decide (oldStatus = completed ∧ status' ≠ completed)
  then findByIdAndUpdate user 0 (-1) (users db)
  else users db.

(** ** Sample store *)

Definition workedRecord : Rec :=
  {| firstName := "r0"; phone := "+10000000000"; notes := Some "a";
     status := pending; assignedAt := 10%Z; completedAt := None;
     redistributed := false |}.

Definition doneRecord : Rec :=
  {| firstName := "r1"; phone := "+10000000001"; notes := None;
     status := completed; assignedAt := 10%Z; completedAt := Some 50%Z;
     redistributed := false |}.

Definition busyAgent : Agent :=
  {| _id := 1; name := "ann"; email := "ann"; isActive := true;
     assignedTasks := 5; completedTasks := 2 |}.

Definition annGroup : Group :=
  {| agentId := 1; agentName := "ann"; agentEmail := "ann"; assignedCount := 4;
     weight := None;
     records := [ workedRecord; doneRecord; doneRecord; workedRecord ] |}.

Definition sampleDistribution : Distribution :=
  {| fileName := "rows.csv"; totalRecords := 4; uploadedBy := 9;
     distributionStrategy := "equal"; agents := [ annGroup ];
     summary := {| s_totalAgentsAssigned := 1; s_averageRecordsPerAgent := 4;
                   s_distributionTime := 5 |} |}.

Definition sampleDb : Db :=
  {| users := {[ 1 := busyAgent ]};
     distributions := {[ 7 := sampleDistribution ]} |}.

(** What deleting a distribution takes from the counters of the user
    [uid]: the counts of every group of that user. *)
Definition groupsOf (uid : ObjectId) (groups : list Group) : list Group :=
  List.filter (λ g, agentId g =? uid) groups.

Definition releasedAssigned (uid : ObjectId) (groups : list Group) : nat :=
  sum_list (map assignedCount (groupsOf uid groups)).

Definition releasedCompleted (uid : ObjectId) (groups : list Group) : nat :=
  sum_list (map completedCount (groupsOf uid groups)).

(** The groups in the order in which [redistributeTasks] serves them. *)
Definition sortByLoad (groups : list Group) : list Group :=
  map fst (js_sort byLoad (map (λ agent, (agent, currentLoad agent)) groups)).

(** The comparator of the sort, on the groups themselves. *)
Definition byCurrentLoad (a b : Group) : Q :=
  (numN (currentLoad a) - numN (currentLoad b))%Q.

(** The group that position [j] of the serving order holds afterwards. *)
Definition redistributedGroup (now : Time) (tasks : list Rec) (k j : nat)
    (g : Group) : Group :=
  {| agentId := agentId g; agentName := agentName g; agentEmail := agentEmail g;
     assignedCount := assignedCount g + length (deal k j 0 tasks);
     weight := weight g;
     records := records g ++ map (reassign now) (deal k j 0 tasks) |}.

Definition failedRecord : Rec :=
  {| firstName := "r2"; phone := "+10000000002"; notes := None;
     status := failed; assignedAt := 10%Z; completedAt := None;
     redistributed := false |}.

(** A group as the weighted strategy leaves it for the second of two
    agents of equal weight and a single record: a count without a
    record. *)
Definition phantomGroup : Group :=
  {| agentId := 2; agentName := "bob"; agentEmail := "bob"; assignedCount := 1;
     weight := None; records := [] |}.

Definition phantomDistribution : Distribution :=
  {| fileName := "rows.csv"; totalRecords := 1; uploadedBy := 9;
     distributionStrategy := "weighted"; agents := [ phantomGroup ];
     summary := {| s_totalAgentsAssigned := 1; s_averageRecordsPerAgent := 1;
                   s_distributionTime := 5 |} |}.

(** A group with [n] pending records, and a distribution with live
    loads 5, 1 and 3. *)
Definition loadedGroup (id : ObjectId) (n : nat) : Group :=
  {| agentId := id; agentName := "agent"; agentEmail := "agent"; assignedCount := n;
     weight := None; records := replicate n workedRecord |}.

Definition loadedDistribution : Distribution :=
  {| fileName := "rows.csv"; totalRecords := 9; uploadedBy := 9;
     distributionStrategy := "equal";
     agents := [ loadedGroup 1 5; loadedGroup 2 1; loadedGroup 3 3 ];
     summary := {| s_totalAgentsAssigned := 3; s_averageRecordsPerAgent := 3;
                   s_distributionTime := 5 |} |}.

(** * Further functions of the engine, the model and the controller

    The analytics of the engine; the read handlers [getMyRecords] and
    [getAllMyRecords] and the upload handler of the controller; the
    method, the virtuals and the record validators of the Distribution
    model; and the row validation of [backend/utils/fileProcessor.js].

    Further conventions.
    - A query that returns documents in store order ([Distribution.find])
      lists the map in the order of [map_to_list]; what is proved of its
      result does not depend on that order.
    - The result of [User.find] and the [_id] of a new document are
      arguments of the handler that makes the call.
    - White space is ASCII white space, and the length of a text is
      the number of characters of its [string]. *)

(** ** getDistributionAnalytics *)

(** [records.filter(r => r.status === s).length] *)
Definition countStatus (s : Status) (rs : list Rec) : nat :=
  length (List.filter (λ r, bool_decide (status r = s)) rs).

Record AgentProgress := mkAgentProgress {
  ap_agentName : string;
  ap_assigned : nat;
  ap_completed : nat;
  ap_inProgress : nat;
  ap_pending : nat;
  ap_completionRate : Q
}.

Record Analytics := mkAnalytics {
  totalTasks : nat;
  agentPerformance : list AgentProgress;
  overallCompleted : nat;
  overallInProgress : nat;
  overallPending : nat;
  overallCompletionRate : Q
}.

Definition agentProgress (agent : Group) : AgentProgress :=
  let completed' := countStatus completed (records agent) in
  let inProgress := countStatus in_progress (records agent) in
  let pending' := countStatus pending (records agent) in
  {| ap_agentName := agentName agent;
     ap_assigned := assignedCount agent;
     ap_completed := completed';
     ap_inProgress := inProgress;
     ap_pending := pending';
     ap_completionRate :=
       if 0 <? assignedCount agent
       then (numN completed' / numN (assignedCount agent) * 100)%Q
       else 0%Q |}.

(** [agents.reduce((sum, agent) => sum + count(agent), 0)] *)
Definition sumOver (count : Group → nat) (groups : list Group) : nat :=
  fold_left (λ sum agent, sum + count agent) groups 0.

(** Get distribution analytics, of the object [distribute] returned
    (possibly with record statuses changed since). *)
Definition getDistributionAnalytics (groups : list Group) (engineSummary : Summary)
    : Analytics :=
  let total := totalRecordsDistributed engineSummary in
  let overall := sumOver (λ agent, countStatus completed (records agent)) groups in
  {| totalTasks := total;
     agentPerformance := map agentProgress groups;
     overallCompleted := overall;
     overallInProgress :=
       sumOver (λ agent, countStatus in_progress (records agent)) groups;
     overallPending := sumOver (λ agent, countStatus pending (records agent)) groups;
     overallCompletionRate :=
       if 0 <? total then (numN overall / numN total * 100)%Q else 0%Q |}.

(** ** The counters the users should carry *)

(** What the groups of the user [uid] in the distribution [d] count. *)
Definition assignedIn (uid : ObjectId) (d : Distribution) : nat :=
  releasedAssigned uid (agents d).

Definition completedIn (uid : ObjectId) (d : Distribution) : nat :=
  releasedCompleted uid (agents d).

Definition totalOver (count : Distribution → nat)
    (ds : gmap ObjectId Distribution) : nat :=
  map_fold (λ _ d total, count d + total) 0 ds.

(** The counters agree with the stored distributions: every user's
    [assignedTasks] is the sum of the [assignedCount]s of the user's
    groups, and [completedTasks] the number of completed records in
    them. *)
Definition countersSound (db : Db) : Prop :=
  ∀ uid u, users db !! uid = Some u →
    assignedTasks u = Z.of_nat (totalOver (assignedIn uid) (distributions db))
    ∧ completedTasks u = Z.of_nat (totalOver (completedIn uid) (distributions db)).

Definition steadyAgent : Agent :=
  {| _id := 1; name := "ann"; email := "ann"; isActive := true;
     assignedTasks := 4; completedTasks := 2 |}.

Definition steadyDb : Db :=
  {| users := {[ 1 := steadyAgent ]};
     distributions := {[ 7 := sampleDistribution ]} |}.

(** ** getMyRecords and getAllMyRecords *)

(** The status as the schema's enum spells it. *)
Definition statusName (s : Status) : string :=
  match s with
  | pending => "pending"
  | in_progress => "in-progress"
  | completed => "completed"
  | failed => "failed"
  end.

Record RecordCounts := mkRecordCounts {
  n_total : nat;
  n_pending : nat;
  n_inProgress : nat;
  n_completed : nat;
  n_failed : nat
}.

Definition countRecords (rs : list Rec) : RecordCounts :=
  {| n_total := length rs;
     n_pending := countStatus pending rs;
     n_inProgress := countStatus in_progress rs;
     n_completed := countStatus completed rs;
     n_failed := countStatus failed rs |}.

Inductive MyRecords :=
  | MyRecordsJson (code : nat) (message : string)
  | MyRecordsData (distributionId : ObjectId) (file : string) (count : nat)
      (rs : list Rec) (counts : RecordCounts).

(** Get agent's assigned records from a distribution (the request
    names the distribution). *)
Definition getMyRecords (db : Db) (user id : ObjectId) : MyRecords :=
  match distributions db !! id with
  | None => MyRecordsJson 404 "Distribution not found"
  | Some distribution =>
      match findGroup user (agents distribution) with
      | None => MyRecordsJson 403 "You are not assigned to this distribution"
      | Some (_, agentData) =>
          MyRecordsData id (fileName distribution) (assignedCount agentData)
            (records agentData) (countRecords (records agentData))
      end
  end.

(** A record with the distribution it comes from. *)
Record TaggedRecord := mkTaggedRecord {
  t_record : Rec;
  t_distributionId : ObjectId;
  t_distributionName : string;
  t_uploadedBy : ObjectId
}.

Record AllCounts := mkAllCounts {
  a_total : nat;
  a_pending : nat;
  a_inProgress : nat;
  a_completed : nat;
  a_failed : nat;
  a_cancelled : nat
}.

(** [allRecords.filter(r => r.status === name).length] *)
Definition countNamed (name : string) (rs : list TaggedRecord) : nat :=
  length (List.filter (λ r, String.eqb (statusName (status (t_record r))) name) rs).

(** [Distribution.find({'agents.agentId': user})], in the order of the
    store. *)
Definition findAssigned (db : Db) (user : ObjectId)
    : list (ObjectId * Distribution) :=
  List.filter (λ entry, existsb (λ agent, agentId agent =? user) (agents entry.2))
              (map_to_list (distributions db)).

Definition recordsWithDistribution (user : ObjectId)
    (entry : ObjectId * Distribution) : list TaggedRecord :=
  match findGroup user (agents entry.2) with
  | Some (_, agentData) =>
      map (λ record,
             {| t_record := record; t_distributionId := entry.1;
                t_distributionName := fileName entry.2;
                t_uploadedBy := uploadedBy entry.2 |})
          (records agentData)
  | None => []
  end.

(** Get all agent's assigned records across all distributions. *)
Definition getAllMyRecords (db : Db) (user : ObjectId)
    : list TaggedRecord * AllCounts :=
  let allRecords :=
    foldl (λ allRecords entry, allRecords ++ recordsWithDistribution user entry)
          [] (findAssigned db user) in
  (allRecords,
   {| a_total := length allRecords;
      a_pending := countNamed "pending" allRecords;
      a_inProgress := countNamed "in-progress" allRecords;
      a_completed := countNamed "completed" allRecords;
      a_failed := countNamed "failed" allRecords;
      a_cancelled := countNamed "cancelled" allRecords |}).

(** ** The Distribution model: method and virtuals *)

Inductive Saved :=
  | SavedDocument (d : Distribution)
  | SaveInvalid
  | Threw (e : JsError).

(** [distribution.updateRecordStatus(agentId, recordIndex, status)]:
    Method to update record status. An index outside the array reads
    [undefined]. *)
Definition Distribution_updateRecordStatus (now : Time) (this : Distribution)
    (agentId' : ObjectId) (recordIndex : Z) (status' : Status) : Saved :=
  match findGroup agentId' (agents this) with
  | None => Threw (Error "Record not found")
  | Some (groupIdx, agent) =>
      match (if (recordIndex <? 0)%Z then None
             else records agent !! Z.to_nat recordIndex) with
      | None => Threw (Error "Record not found")
      | Some record =>
          let record' := setStatus now status' None record in
          if negb (notesValid record') then SaveInvalid
          else
            SavedDocument
              (preSave
                 (withAgents
                    (<[groupIdx :=
                         withRecords (<[Z.to_nat recordIndex := record']> (records agent))
                                     agent]> (agents this))
                    this))
      end
  end.







(** ** FileProcessor: rows of an uploaded file

    A row as the parser hands it over: a column is absent or a string.
    Lengths are counted in the characters of [string]. *)




















(** ** The record schema: setters and validators *)






(** ** uploadAndDistribute *)




(** ** Sample upload *)




Definition emptyDb : Db := {| users := ∅; distributions := ∅ |}.


(** * Properties *)

(** ** Lists and slices *)

Lemma slice_app {A} (a b c : nat) (l : list A) :
  a ≤ b → b ≤ c → slice a b l ++ slice b c l = slice a c l.
Proof.
  intros Hab Hbc. unfold slice.
  assert (drop b l = drop (b - a) (drop a l)) as ->
    by (rewrite drop_drop; f_equal; lia).
  rewrite take_take_drop. f_equal. lia.
Qed.

Lemma slice_all {A} (l : list A) : slice 0 (length l) l = l.
Proof. unfold slice. rewrite Nat.sub_0_r, drop_0. apply firstn_all. Qed.

Lemma slice_length {A} (a b : nat) (l : list A) :
  b ≤ length l → length (slice a b l) = b - a.
Proof. intros Hb. unfold slice. rewrite length_take, length_drop. lia. Qed.

Lemma fold_left_add_sum_list (counts : list nat) (acc : nat) :
  fold_left Nat.add counts acc = acc + sum_list counts.
Proof.
  revert acc. induction counts as [|c counts IH]; intros acc; simpl.
  - lia.
  - rewrite IH. lia.
Qed.

Lemma sumCounts_sum_list (counts : list nat) : sumCounts counts = sum_list counts.
Proof. unfold sumCounts. by rewrite fold_left_add_sum_list. Qed.

Lemma length_concat_records (groups : list Group) :
  length (concat (map records groups)) = sum_list (map (λ g, length (records g)) groups).
Proof.
  induction groups as [|g groups IH]; simpl; [done|].
  by rewrite length_app, IH.
Qed.

Lemma sum_list_map_ext {A} (f h : A → nat) (l : list A) :
  Forall (λ x, f x = h x) l → sum_list (map f l) = sum_list (map h l).
Proof. induction 1 as [|x l Hx _ IH]; simpl; [done|]. by rewrite Hx, IH. Qed.

(** ** Equal strategy: closed form *)


Lemma equalOffset_S n r i : equalOffset n r (S i) = equalOffset n r i + equalShare n r i.
Proof. unfold equalOffset, equalShare. destruct (Nat.ltb_spec i r); lia. Qed.

Lemma equalOffset_mono n r i j : i ≤ j → equalOffset n r i ≤ equalOffset n r j.
Proof.
  intros Hij. unfold equalOffset.
  pose proof (Nat.mul_le_mono_r i j n Hij). lia.
Qed.

Lemma equalOffset_total (len k : nat) :
  k ≠ 0 → equalOffset (len / k) (len mod k) k = len.
Proof.
  intros Hk. unfold equalOffset.
  pose proof (Nat.mod_upper_bound len k Hk).
  pose proof (Nat.div_mod_eq len k). lia.
Qed.

Section EqualLoop.
Variables (now : Time) (input : list InputRecord) (n r : nat).

Lemma equalLoop_closed (agents : list Agent) (i : nat) :
  equalLoop now input n r i agents (equalOffset n r i)
  = imap (λ j, equalGroup now input n r (i + j)) agents.
Proof.
  revert i. induction agents as [|agent rest IH]; intros i; simpl; [done|].
  f_equal.
  - unfold equalGroup. rewrite Nat.add_0_r, equalOffset_S. done.
  - fold (equalShare n r i). rewrite <- equalOffset_S, IH.
    apply imap_ext. intros j x _. simpl. f_equal. lia.
Qed.

Lemma equalGroups_concat (agents : list Agent) (i : nat) :
  concat (map records (imap (λ j, equalGroup now input n r (i + j)) agents))
  = map (assign now)
        (slice (equalOffset n r i) (equalOffset n r (i + length agents)) input).
Proof.
  revert i. induction agents as [|agent rest IH]; intros i; simpl.
  - rewrite Nat.add_0_r. unfold slice. by rewrite Nat.sub_diag.
  - rewrite Nat.add_0_r.
    rewrite (imap_ext _ (λ j, equalGroup now input n r (S i + j)) rest)
      by (intros j x _; simpl; f_equal; lia).
    rewrite IH, <- map_app, slice_app.
    + do 2 f_equal. f_equal. lia.
    + apply equalOffset_mono. lia.
    + apply equalOffset_mono. lia.
Qed.
End EqualLoop.

(** ** The stable sort *)

Section JsSortFacts.
Context {A : Type} (cmp : A → A → Q) (key : A → Q).
Hypothesis cmp_key : ∀ a b, (cmp a b == key b - key a)%Q.

Lemma placedAfter_lt (x y : A) : placedAfter cmp x y = true ↔ (key x < key y)%Q.
Proof.
  unfold placedAfter. rewrite negb_true_iff, <- not_true_iff_false, Qle_bool_iff.
  rewrite cmp_key. split.
  - intros H. apply Qnot_le_lt in H. lra.
  - intros H Hle. lra.
Qed.

Lemma placedAfter_ge (x y : A) : placedAfter cmp x y = false ↔ (key y <= key x)%Q.
Proof.
  rewrite <- not_true_iff_false, placedAfter_lt. split.
  - apply Qnot_lt_le.
  - intros H1 H2. lra.
Qed.

Lemma sortInsert_perm (x : A) (l : list A) : sortInsert cmp x l ≡ₚ x :: l.
Proof.
  induction l as [|y ys IH]; simpl; [done|].
  destruct (placedAfter cmp x y); [|done].
  rewrite IH. apply perm_swap.
Qed.

Lemma js_sort_perm (l : list A) : js_sort cmp l ≡ₚ l.
Proof.
  induction l as [|x l IH]; simpl; [done|].
  by rewrite sortInsert_perm, IH.
Qed.

Lemma js_sort_length (l : list A) : length (js_sort cmp l) = length l.
Proof. by rewrite js_sort_perm. Qed.

Lemma sortInsert_descending (x : A) (l : list A) :
  descending key l → descending key (sortInsert cmp x l).
Proof.
  induction 1 as [|y ys Hys IH Hall]; simpl.
  - repeat constructor.
  - destruct (placedAfter cmp x y) eqn:Hxy.
    + apply placedAfter_lt in Hxy. constructor; [done|].
      rewrite sortInsert_perm. constructor; [lra|done].
    + apply placedAfter_ge in Hxy. constructor; [by constructor|].
      constructor; [done|].
      eapply Forall_impl; [exact Hall|]. simpl. intros b Hb. lra.
Qed.

Lemma js_sort_descending (l : list A) : descending key (js_sort cmp l).
Proof.
  induction l as [|x l IH]; simpl; [constructor|].
  by apply sortInsert_descending.
Qed.

(** Stability: elements that tie on the key keep their input order. *)
Section Tied.
Variable P : A → bool.
Hypothesis P_tied : ∀ a b, P a = true → P b = true → (key a == key b)%Q.

Lemma sortInsert_filter (x : A) (l : list A) :
  List.filter P (sortInsert cmp x l)
  = if P x then x :: List.filter P l else List.filter P l.
Proof.
  induction l as [|y ys IH]; simpl; [done|].
  destruct (placedAfter cmp x y) eqn:Hxy; simpl; [|done].
  rewrite IH. apply placedAfter_lt in Hxy.
  destruct (P x) eqn:Hx, (P y) eqn:Hy; try done.
  pose proof (P_tied x y Hx Hy). lra.
Qed.

Lemma js_sort_stable (l : list A) :
  List.filter P (js_sort cmp l) = List.filter P l.
Proof.
  induction l as [|x l IH]; simpl; [done|].
  rewrite sortInsert_filter, IH. done.
Qed.
End Tied.
End JsSortFacts.

(** ** Round robin *)

Lemma div_mod_S (m k : nat) :
  k ≠ 0 →
  (S (m mod k) < k ∧ S m / k = m / k ∧ S m mod k = S (m mod k))
  ∨ (S (m mod k) = k ∧ S m / k = S (m / k) ∧ S m mod k = 0).
Proof.
  intros Hk.
  pose proof (Nat.div_mod_eq m k) as Hm.
  pose proof (Nat.mod_upper_bound m k Hk) as Hlt.
  destruct (decide (S (m mod k) < k)) as [Hs|Hs]; [left|right].
  - split; [done|]. split; symmetry.
    + apply (Nat.div_unique _ _ _ (S (m mod k))); lia.
    + apply (Nat.mod_unique _ _ (m / k)); lia.
  - split; [lia|]. split; symmetry.
    + apply (Nat.div_unique _ _ _ 0); lia.
    + apply (Nat.mod_unique _ _ (S (m / k))); lia.
Qed.

Lemma equalShare_S (m k j : nat) :
  k ≠ 0 → j < k →
  equalShare (S m / k) (S m mod k) j
  = equalShare (m / k) (m mod k) j + (if m mod k =? j then 1 else 0).
Proof.
  intros Hk Hj. unfold equalShare.
  destruct (div_mod_S m k Hk) as [(H1 & -> & ->)|(H1 & -> & ->)];
    destruct (Nat.eqb_spec (m mod k) j);
    repeat match goal with |- context [?a <? ?b] => destruct (Nat.ltb_spec a b) end;
    lia.
Qed.

Section RoundRobinFacts.
Context {G T : Type} (push : T → G → G).

Lemma roundRobin_closed (tasks : list T) (groups : list G) (m : nat) :
  groups ≠ [] →
  roundRobin push tasks groups (m mod length groups)
  = Some (imap (λ j, pushAll push (deal (length groups) j m tasks)) groups).
Proof.
  revert groups m. induction tasks as [|task rest IH]; intros groups m Hne.
  - simpl. f_equal. apply list_eq. intros j.
    rewrite list_lookup_imap. by destruct (groups !! j).
  - assert (length groups ≠ 0) as Hk by (by destruct groups).
    pose proof (Nat.mod_upper_bound m _ Hk) as Hlt.
    destruct (lookup_lt_is_Some_2 groups _ Hlt) as [g Hg].
    simpl. rewrite Hg. simpl.
    rewrite Nat.Div0.add_mod_idemp_l.
    replace (m + 1) with (S m) by lia.
    set (groups1 := <[m mod length groups := push task g]> groups).
    assert (length groups1 = length groups) as Hlen by apply length_insert.
    rewrite <- Hlen, IH by (intros E; rewrite E in Hlen; simpl in Hlen; lia).
    rewrite Hlen. f_equal. apply list_eq. intros j.
    rewrite !list_lookup_imap. unfold groups1.
    destruct (Nat.eqb_spec (m mod length groups) j) as [<-|Hj].
    + rewrite list_lookup_insert_eq by done. by rewrite Hg.
    + by rewrite list_lookup_insert_ne.
Qed.
End RoundRobinFacts.

Lemma deal_snoc {T} (k j m : nat) (l : list T) (x : T) :
  deal k j m (l ++ [x])
  = deal k j m l ++ (if (m + length l) mod k =? j then [x] else []).
Proof.
  revert m. induction l as [|y l IH]; intros m; simpl.
  - rewrite Nat.add_0_r. by destruct (m mod k =? j).
  - rewrite IH. replace (S m + length l) with (m + S (length l)) by lia.
    by destruct (m mod k =? j).
Qed.

Lemma deal_length {T} (k j : nat) (l : list T) :
  k ≠ 0 → j < k →
  length (deal k j 0 l) = equalShare (length l / k) (length l mod k) j.
Proof.
  intros Hk Hj. induction l as [|x l IH] using rev_ind.
  - simpl. rewrite Nat.Div0.div_0_l, Nat.Div0.mod_0_l. unfold equalShare.
    simpl. lia.
  - rewrite deal_snoc, !length_app, IH. simpl.
    replace (length l + 1) with (S (length l)) by lia.
    rewrite equalShare_S by done.
    by destruct (length l mod k =? j).
Qed.

Lemma deal_lookup {T} (k p : nat) (l : list T) (x : T) :
  k ≠ 0 → l !! p = Some x → deal k (p mod k) 0 l !! (p / k) = Some x.
Proof.
  intros Hk. induction l as [|y l IH] using rev_ind; [done|].
  intros Hp. rewrite deal_snoc. simpl.
  destruct (decide (p < length l)) as [Hlt|Hge].
  - rewrite lookup_app_l in Hp by done.
    apply lookup_app_l_Some. by apply IH.
  - pose proof (lookup_lt_Some _ _ _ Hp) as Hb. rewrite length_app in Hb.
    simpl in Hb. assert (p = length l) as -> by lia.
    rewrite list_lookup_middle in Hp by done. injection Hp as ->.
    pose proof (Nat.mod_upper_bound (length l) k Hk).
    rewrite Nat.eqb_refl. apply list_lookup_middle.
    rewrite deal_length by done. unfold equalShare.
    destruct (Nat.ltb_spec (length l mod k) (length l mod k)); lia.
Qed.

Lemma deal_sublist_positions {T} (k j : nat) (l : list T) (q : nat) (x : T) :
  k ≠ 0 → j < k → deal k j 0 l !! q = Some x → l !! (q * k + j) = Some x.
Proof.
  intros Hk Hj. induction l as [|y l IH] using rev_ind; [done|].
  rewrite deal_snoc. simpl. intros Hq.
  destruct (decide (q < length (deal k j 0 l))) as [Hlt|Hge].
  - rewrite lookup_app_l in Hq by done.
    apply lookup_app_l_Some. by apply IH.
  - rewrite lookup_app_r in Hq by lia.
    destruct (Nat.eqb_spec (length l mod k) j) as [Hj'|Hj']; [|done].
    destruct (q - length (deal k j 0 l)) eqn:Hd; [|done].
    injection Hq as ->. rewrite deal_length in * by done.
    unfold equalShare in *. rewrite Hj' in *.
    destruct (Nat.ltb_spec j j); [lia|].
    assert (q = length l / k) as -> by lia.
    pose proof (Nat.div_mod_eq (length l) k).
    apply list_lookup_middle. lia.
Qed.

(** ** Minimum and maximum of the counts *)

Local Ltac elem_solver := rewrite ?elem_of_cons in *; tauto.

Lemma foldr_min_spec (d : nat) (l : list nat) :
  foldr Nat.min d l ∈ d :: l ∧ Forall (λ c, foldr Nat.min d l ≤ c) (d :: l).
Proof.
  induction l as [|x l [IHin IHall]]; simpl.
  - split; [elem_solver|]. apply Forall_cons. split; [lia|constructor].
  - apply Forall_cons in IHall as [Hd Hl].
    rewrite !Forall_cons.
    destruct (Nat.min_spec x (foldr Nat.min d l)) as [[Hlt ->]|[Hge ->]].
    + split; [elem_solver|]. split; [lia|]. split; [lia|].
      eapply Forall_impl; [exact Hl|]. simpl. lia.
    + split; [elem_solver|]. split; [lia|]. split; [lia|done].
Qed.

Lemma foldr_max_spec (d : nat) (l : list nat) :
  foldr Nat.max d l ∈ d :: l ∧ Forall (λ c, c ≤ foldr Nat.max d l) (d :: l).
Proof.
  induction l as [|x l [IHin IHall]]; simpl.
  - split; [elem_solver|]. apply Forall_cons. split; [lia|constructor].
  - apply Forall_cons in IHall as [Hd Hl].
    rewrite !Forall_cons.
    destruct (Nat.max_spec x (foldr Nat.max d l)) as [[Hlt ->]|[Hge ->]].
    + split; [elem_solver|]. split; [lia|]. split; [lia|done].
    + split; [elem_solver|]. split; [lia|]. split; [lia|].
      eapply Forall_impl; [exact Hl|]. simpl. lia.
Qed.

Lemma Math_min_spec (counts : list nat) :
  counts ≠ [] → Math_min counts ∈ counts ∧ ∀ c, c ∈ counts → Math_min counts ≤ c.
Proof.
  destruct counts as [|x l]; [done|]. intros _. unfold Math_min.
  destruct (foldr_min_spec x (x :: l)) as [Hin Hall]. simpl hd. split.
  - elem_solver.
  - intros c Hc. rewrite Forall_forall in Hall. apply Hall. elem_solver.
Qed.

Lemma Math_max_spec (counts : list nat) :
  counts ≠ [] → Math_max counts ∈ counts ∧ ∀ c, c ∈ counts → c ≤ Math_max counts.
Proof.
  destruct counts as [|x l]; [done|]. intros _. unfold Math_max.
  destruct (foldr_max_spec x (x :: l)) as [Hin Hall]. simpl hd. split.
  - elem_solver.
  - intros c Hc. rewrite Forall_forall in Hall. apply Hall. elem_solver.
Qed.

Lemma Math_min_le_max (counts : list nat) :
  counts ≠ [] → Math_min counts ≤ Math_max counts.
Proof.
  intros Hne. destruct (Math_min_spec counts Hne) as [Hin _].
  destruct (Math_max_spec counts Hne) as [_ Hub]. by apply Hub.
Qed.

(** When any two counts differ by at most one, so do the extremes. *)
Lemma spread_le_1 (counts : list nat) :
  counts ≠ [] →
  (∀ c c', c ∈ counts → c' ∈ counts → c ≤ c' + 1) →
  Math_max counts - Math_min counts ≤ 1.
Proof.
  intros Hne Hclose.
  destruct (Math_min_spec counts Hne) as [Hmin _].
  destruct (Math_max_spec counts Hne) as [Hmax _].
  specialize (Hclose _ _ Hmax Hmin). lia.
Qed.

(** ** Equal strategy: partition and balance *)

Lemma equalDistribution_closed (now : Time) (input : list InputRecord)
    (agents : list Agent) :
  equalDistribution now input agents
  = imap (equalGroup now input (length input / length agents)
                     (length input mod length agents)) agents.
Proof.
  unfold equalDistribution.
  change 0 with (equalOffset (length input / length agents)
                             (length input mod length agents) 0) at 2.
  rewrite equalLoop_closed. apply imap_ext. intros j x _. done.
Qed.

Lemma equalGroup_count (now : Time) (input : list InputRecord) (k i : nat)
    (agent : Agent) :
  i < k →
  let g := equalGroup now input (length input / k) (length input mod k) i agent in
  length (records g) = assignedCount g.
Proof.
  intros Hi. simpl. rewrite length_map, slice_length.
  - rewrite equalOffset_S. lia.
  - rewrite <- (equalOffset_total (length input) k) at 3 by lia.
    apply equalOffset_mono. lia.
Qed.

Lemma equalGroup_records (now : Time) (input : list InputRecord) (n r i : nat)
    (agent : Agent) :
  records (equalGroup now input n r i agent)
  = map (assign now)
        (take (n + (if i <? r then 1 else 0)) (drop (i * n + Nat.min i r) input)).
Proof.
  unfold equalGroup, records, slice. rewrite equalOffset_S.
  unfold equalOffset, equalShare. do 2 f_equal. lia.
Qed.

Lemma equalDistribution_partitions (now : Time) (input : list InputRecord)
    (agents : list Agent) :
  agents ≠ [] → partitions now input (equalDistribution now input agents).
Proof.
  intros Hne. assert (length agents ≠ 0) as Hk by (by destruct agents).
  rewrite equalDistribution_closed.
  assert (Forall (λ g, assignedCount g = length (records g))
            (imap (equalGroup now input (length input / length agents)
                     (length input mod length agents)) agents)) as Hcount.
  { apply Forall_forall. intros g Hg.
    apply list_elem_of_lookup in Hg as [i Hi].
    rewrite list_lookup_imap in Hi.
    destruct (agents !! i) as [agent|] eqn:Ha; [|done].
    injection Hi as <-. symmetry. apply equalGroup_count.
    by eapply lookup_lt_Some. }
  assert (concat (map records
            (imap (equalGroup now input (length input / length agents)
                     (length input mod length agents)) agents))
          = map (assign now) input) as Hcat.
  { etrans; [exact (equalGroups_concat now input _ _ agents 0)|].
    cbn [Nat.add]. rewrite equalOffset_total by done.
    unfold equalOffset at 1. simpl. by rewrite slice_all. }
  split; [by rewrite Hcat|]. split; [|done].
  rewrite (sum_list_map_ext _ _ _ Hcount).
  by rewrite <- length_concat_records, Hcat, length_map.
Qed.

(** ** distribute: the guards and the dispatch *)

Lemma distribute_selected (clock : Clock) (input : list InputRecord)
    (agents : list Agent) (strategy : string) (method : Method) :
  input ≠ [] → List.filter isActive agents ≠ [] →
  selected strategy = Some method →
  distribute clock (Some input) (Some agents) strategy
  = finish clock input strategy
      (runMethod method (stamp clock) input (List.filter isActive agents)).
Proof.
  intros Hin Hact Hsel. unfold distribute, selected in *.
  destruct input as [|r0 input]; [done|].
  destruct agents as [|a0 agents]; [done|].
  destruct (List.filter isActive (a0 :: agents)) as [|b0 active]; [done|].
  destruct (strategies strategy); by simplify_eq.
Qed.

Lemma finish_plan (clock : Clock) (input : list InputRecord) (strategy : string)
    (groups : list Group) :
  finish clock input strategy (Some groups)
  = Resolved (Plan groups
       (generateSummary groups (length input) (endTime clock - startTime clock))
       strategy (endTime clock - startTime clock)).
Proof. done. Qed.

(** ** Pushing records, and the priority strategy *)

Lemma pushAll_pushRecord {T} (f : T → Rec) (tasks : list T) (g : Group) :
  pushAll (λ task, pushRecord (f task)) tasks g
  = {| agentId := agentId g; agentName := agentName g; agentEmail := agentEmail g;
       assignedCount := assignedCount g + length tasks; weight := weight g;
       records := records g ++ map f tasks |}.
Proof.
  revert g. unfold pushAll.
  induction tasks as [|task rest IH]; intros g; simpl.
  - destruct g; simpl. by rewrite Nat.add_0_r, app_nil_r.
  - rewrite IH. unfold pushRecord; simpl. f_equal; [lia|].
    by rewrite <- app_assoc.
Qed.

Lemma concat_insert_perm {G X} (items : G → list X) (groups : list G) (i : nat)
    (g g' : G) (extra : list X) :
  groups !! i = Some g → items g' = items g ++ extra →
  concat (map items (<[i := g']> groups)) ≡ₚ concat (map items groups) ++ extra.
Proof.
  intros Hi Hitems.
  rewrite insert_take_drop by (by eapply lookup_lt_Some).
  rewrite <- (take_drop_middle groups i g Hi) at 3.
  rewrite !map_app, !concat_app. simpl. rewrite Hitems, <- !app_assoc.
  apply Permutation_app_head, Permutation_app_head, Permutation_app_comm.
Qed.

Section RoundRobinPerm.
Context {G T X : Type} (push : T → G → G) (items : G → list X) (f : T → X).
Hypothesis items_push : ∀ task g, items (push task g) = items g ++ [f task].

Lemma roundRobin_perm (tasks : list T) (groups groups' : list G) (i : nat) :
  roundRobin push tasks groups i = Some groups' →
  concat (map items groups') ≡ₚ concat (map items groups) ++ map f tasks.
Proof.
  revert groups i. induction tasks as [|task rest IH]; intros groups i; simpl.
  - intros [= <-]. by rewrite app_nil_r.
  - destruct (groups !! i) as [g|] eqn:Hg; [|done]. simpl. intros Hrest.
    rewrite (IH _ _ Hrest).
    rewrite (concat_insert_perm items groups i g _ [f task] Hg (items_push _ _)).
    by rewrite <- app_assoc.
Qed.
End RoundRobinPerm.

Lemma emptyGroups_records (agents : list Agent) :
  concat (map records (map emptyGroup agents)) = [].
Proof. induction agents as [|a l IH]; simpl; done. Qed.

Lemma priorityDistribution_closed (now : Time) (input : list InputRecord)
    (agents : list Agent) :
  agents ≠ [] →
  priorityDistribution now input agents
  = Some (imap (priorityGroup now (sortRecords input) (length agents))
               (sortAgents agents)).
Proof.
  intros Hne. unfold priorityDistribution.
  assert (length (sortAgents agents) = length agents) as Hlen.
  { unfold sortAgents. apply Permutation_length.
    apply js_sort_perm. }
  assert (map emptyGroup (sortAgents agents) ≠ []) as Hne'.
  { destruct (sortAgents agents); [by destruct agents|done]. }
  pose proof (roundRobin_closed (λ record, pushRecord (assign now record))
                (sortRecords input) _ 0 Hne') as Hrr.
  rewrite Nat.Div0.mod_0_l in Hrr. rewrite Hrr. f_equal.
  rewrite length_map, Hlen. apply list_eq. intros j.
  rewrite !list_lookup_imap.
  change (map emptyGroup (sortAgents agents)) with (emptyGroup <$> sortAgents agents).
  rewrite list_lookup_fmap. destruct (sortAgents agents !! j) as [agent|]; [|done].
  simpl. f_equal. by rewrite pushAll_pushRecord.
Qed.

Lemma priorityDistribution_partitions (now : Time) (input : list InputRecord)
    (agents : list Agent) :
  agents ≠ [] →
  ∃ groups, priorityDistribution now input agents = Some groups
            ∧ partitions now input groups.
Proof.
  intros Hne. eexists. split; [by apply priorityDistribution_closed|].
  pose proof (priorityDistribution_closed now input agents Hne) as Hclosed.
  unfold priorityDistribution in Hclosed.
  apply (roundRobin_perm _ records (assign now)) in Hclosed; [|done].
  rewrite emptyGroups_records in Hclosed. simpl in Hclosed.
  assert (sortRecords input ≡ₚ input) as Hsorted.
  { apply js_sort_perm. }
  assert (Forall (λ g, assignedCount g = length (records g))
            (imap (priorityGroup now (sortRecords input) (length agents))
                  (sortAgents agents))) as Hcount.
  { apply Forall_forall. intros g Hg.
    apply list_elem_of_lookup in Hg as [j Hj]. rewrite list_lookup_imap in Hj.
    destruct (sortAgents agents !! j); [|done]. injection Hj as <-.
    simpl. by rewrite length_map. }
  split; [by rewrite Hclosed, Hsorted|]. split; [|done].
  rewrite (sum_list_map_ext _ _ _ Hcount), <- length_concat_records.
  by rewrite Hclosed, length_map, Hsorted.
Qed.

Lemma StronglySorted_impl {A} (R R' : A → A → Prop) (l : list A) :
  (∀ a b, R a b → R' a b) → StronglySorted R l → StronglySorted R' l.
Proof.
  intros Himpl. induction 1 as [|x l _ IH Hall]; constructor; [done|].
  eapply Forall_impl; [exact Hall|]. apply Himpl.
Qed.

Lemma numN_le (a b : nat) : (numN a <= numN b)%Q ↔ a ≤ b.
Proof. unfold numN. rewrite <- Zle_Qle. lia. Qed.




Lemma sortAgents_perm (agents : list Agent) : sortAgents agents ≡ₚ agents.
Proof. apply js_sort_perm. Qed.



(** ** Weighted strategy *)

Lemma weightedOffset_0 total W ws : weightedOffset total W ws 0 = 0.
Proof. unfold weightedOffset. by rewrite take_0. Qed.

Lemma weightedOffset_cons total W w ws i :
  weightedOffset total W (w :: ws) (S i)
  = shareOf total W w + weightedOffset total W ws i.
Proof. done. Qed.

Lemma weightedOffset_S total W ws i w :
  ws !! i = Some w →
  weightedOffset total W ws (S i) = weightedOffset total W ws i + shareOf total W w.
Proof.
  revert i. induction ws as [|w0 ws IH]; intros i Hi; [done|].
  destruct i as [|i]; simpl in Hi.
  - injection Hi as ->. rewrite weightedOffset_cons, !weightedOffset_0. lia.
  - rewrite !weightedOffset_cons, (IH i Hi). lia.
Qed.

Section WeightedLoop.
Variables (now : Time) (input : list InputRecord) (agents : list Agent) (W : Q).

Lemma weightedLoop_total (ws : list AgentWeight) (idx : nat) :
  Forall (λ w, is_Some (agentOf agents w)) ws →
  is_Some (weightedLoop now input agents W ws idx).
Proof.
  intros Hall. revert idx. induction Hall as [|w ws [agent Hw] _ IH]; intros idx.
  - by eexists.
  - simpl. unfold agentOf in Hw. rewrite Hw. simpl.
    destruct (IH (idx + shareOf (length input) W w)) as [[groups final] ->].
    by eexists.
Qed.

Lemma weightedLoop_final (ws : list AgentWeight) (idx : nat) groups final :
  weightedLoop now input agents W ws idx = Some (groups, final) →
  length groups = length ws
  ∧ final = idx + weightedOffset (length input) W ws (length ws)
  ∧ sum_list (map assignedCount groups)
    = weightedOffset (length input) W ws (length ws).
Proof.
  revert idx groups. induction ws as [|w ws IH]; intros idx groups; simpl.
  - intros [= <- <-]. rewrite weightedOffset_0. split; [done|]. split; [lia|done].
  - destruct (List.find _ agents) as [agent|]; [|done]. simpl.
    destruct (weightedLoop now input agents W ws _) as [[groups' final']|] eqn:Hrest;
      [|done].
    simpl. intros [= <- <-]. destruct (IH _ _ Hrest) as (Hlen & -> & Hsum).
    rewrite weightedOffset_cons. simpl. rewrite Hlen, Hsum.
    split; [done|]. split; lia.
Qed.

Lemma weightedLoop_lookup (ws : list AgentWeight) (idx : nat) groups final :
  weightedLoop now input agents W ws idx = Some (groups, final) →
  ∀ i w, ws !! i = Some w →
    ∃ g agent,
      groups !! i = Some g ∧ agentOf agents w = Some agent
      ∧ agentId g = _id agent ∧ agentName g = name agent
      ∧ agentEmail g = email agent
      ∧ weight g = Some (aw_weight w)
      ∧ assignedCount g = shareOf (length input) W w
      ∧ records g
        = map (assign now)
              (take (shareOf (length input) W w)
                    (drop (idx + weightedOffset (length input) W ws i) input)).
Proof.
  revert idx groups. induction ws as [|w0 ws IH]; intros idx groups; [done|].
  simpl. destruct (List.find _ agents) as [agent|] eqn:Hfind; [|done]. simpl.
  destruct (weightedLoop now input agents W ws _) as [[groups' final']|] eqn:Hrest;
    [|done].
  simpl. intros [= <- <-] i w Hi. destruct i as [|i]; simpl in Hi.
  - injection Hi as <-. eexists _, agent. split; [reflexivity|].
    rewrite weightedOffset_0, Nat.add_0_r. unfold slice. simpl.
    repeat split; try done. do 2 f_equal. lia.
  - destruct (IH _ _ Hrest i w Hi) as (g & a & Hg & Ha & H1 & H2 & H3 & H4 & H5 & H6).
    exists g, a. rewrite weightedOffset_cons. simpl.
    repeat split; try done. rewrite H6. do 3 f_equal. lia.
Qed.

Lemma weightedLoop_concat (ws : list AgentWeight) (idx : nat) groups final :
  weightedLoop now input agents W ws idx = Some (groups, final) →
  concat (map records groups) = map (assign now) (slice idx final input).
Proof.
  revert idx groups. induction ws as [|w ws IH]; intros idx groups; simpl.
  - intros [= <- <-]. unfold slice. by rewrite Nat.sub_diag.
  - destruct (List.find _ agents) as [agent|]; [|done]. simpl.
    destruct (weightedLoop now input agents W ws _) as [[groups' final']|] eqn:Hrest;
      [|done].
    simpl. intros [= <- <-].
    destruct (weightedLoop_final _ _ _ _ Hrest) as (_ & Hfinal & _).
    cbn [map concat records].
    rewrite (IH _ _ Hrest), <- map_app, slice_app; [done|lia|lia].
Qed.
End WeightedLoop.

Lemma calculateAgentWeights_perm (agents : list Agent) :
  calculateAgentWeights agents ≡ₚ map weigh agents.
Proof. apply js_sort_perm. Qed.

Lemma calculateAgentWeights_found (agents : list Agent) :
  Forall (λ w, is_Some (agentOf agents w)) (calculateAgentWeights agents).
Proof.
  rewrite calculateAgentWeights_perm. apply Forall_forall. intros w Hw.
  apply list_elem_of_In, in_map_iff in Hw as (agent & <- & Hagent).
  unfold agentOf. destruct (List.find _ agents) eqn:Hfind; [by eexists|].
  pose proof (find_none _ _ Hfind agent Hagent) as Hno. simpl in Hno.
  by rewrite Nat.eqb_refl in Hno.
Qed.

(** The loop never fails and the final step hands over what is left. *)
Lemma weightedDistribution_closed (now : Time) (input : list InputRecord)
    (agents : list Agent) :
  agents ≠ [] →
  let ws := calculateAgentWeights agents in
  let W := totalWeightOf ws in
  ∃ top others final,
    weightedLoop now input agents W ws 0 = Some (top :: others, final)
    ∧ weightedDistribution now input agents
      = Some (if final <? length input
              then giveRemaining (map (assign now) (drop final input)) top :: others
              else top :: others).
Proof.
  intros Hne ws W.
  destruct (weightedLoop_total now input agents W ws 0
              (calculateAgentWeights_found agents)) as [[groups final] Hloop].
  destruct (weightedLoop_final _ _ _ _ _ _ _ _ Hloop) as (Hlen & _ & _).
  assert (length ws = length agents) as Hws.
  { unfold ws. by rewrite calculateAgentWeights_perm, length_map. }
  destruct groups as [|top others].
  { destruct agents; [done|]. simpl in *. lia. }
  exists top, others, final. split; [done|].
  unfold weightedDistribution. fold ws W. rewrite Hloop. simpl.
  by destruct (final <? length input).
Qed.

Lemma weightedDistribution_records (now : Time) (input : list InputRecord)
    (agents : list Agent) :
  agents ≠ [] →
  ∃ groups, weightedDistribution now input agents = Some groups
            ∧ concat (map records groups) ≡ₚ map (assign now) input
            ∧ length input ≤ sum_list (map assignedCount groups)
            ∧ length groups = length agents.
Proof.
  intros Hne.
  destruct (weightedDistribution_closed now input agents Hne)
    as (top & others & final & Hloop & ->).
  pose proof (weightedLoop_concat _ _ _ _ _ _ _ _ Hloop) as Hcat.
  destruct (weightedLoop_final _ _ _ _ _ _ _ _ Hloop) as (Hlen & Hfinal & Hsum).
  rewrite calculateAgentWeights_perm, length_map in Hlen.
  simpl in Hfinal. rewrite <- Hfinal in Hsum.
  eexists. split; [reflexivity|].
  destruct (Nat.ltb_spec final (length input)) as [Hlt|Hge].
  - split; [|split].
    + simpl in *. rewrite <- app_assoc.
      rewrite (Permutation_app_comm (map _ _)), app_assoc, Hcat, <- map_app.
      unfold slice. by rewrite Nat.sub_0_r, drop_0, take_drop.
    + simpl in *. rewrite length_map, length_drop. lia.
    + done.
  - split; [|split].
    + rewrite Hcat. unfold slice. by rewrite Nat.sub_0_r, drop_0, take_ge.
    + lia.
    + done.
Qed.

(** ** Rounding *)




(** ** Fairness score *)

Lemma fold_left_squares (avg : R) (counts : list nat) (acc : R) :
  fold_left (λ sum count, sum + (INR count - avg) ^ 2)%R counts acc
  = (acc + Rsum (map (λ c, (INR c - avg) ^ 2)%R counts))%R.
Proof.
  revert acc. unfold Rsum.
  induction counts as [|c counts IH]; intros acc; cbn [fold_left map foldr].
  - ring.
  - rewrite IH. ring.
Qed.

Lemma fairness_spec_bounds (counts : list nat) :
  counts ≠ [] → 0 < sum_list counts →
  (0 <= fairness_spec counts <= 1)%R.
Proof.
  intros Hne Hsum. unfold fairness_spec. split; [apply Rmax_l|].
  apply Rmax_lub; [lra|].
  assert (0 < mean counts)%R as Hmean.
  { unfold mean. apply Rdiv_lt_0_compat.
    - by apply (lt_0_INR (sum_list counts)).
    - apply lt_0_INR. destruct counts; [done|simpl; lia]. }
  assert (0 <= stddev counts)%R as Hsd by apply sqrt_pos.
  assert (0 <= stddev counts / mean counts)%R.
  { apply Rmult_le_pos; [done|]. left. by apply Rinv_0_lt_compat. }
  lra.
Qed.

Lemma fairness_spec_single (c : nat) : fairness_spec [c] = 1%R.
Proof.
  unfold fairness_spec, stddev, mean. simpl.
  rewrite Nat.add_0_r.
  replace ((INR c - INR c / 1) * ((INR c - INR c / 1) * 1) + 0)%R with 0%R by field.
  replace (0 / 1)%R with 0%R by field.
  rewrite sqrt_0. unfold Rdiv. rewrite Rmult_0_l, Rminus_0_r.
  apply Rmax_right. lra.
Qed.

Lemma calculateFairnessScore_spec (counts : list nat) :
  counts ≠ [] → 0 < sum_list counts →
  calculateFairnessScore counts = Some (fairness_spec counts).
Proof.
  intros Hne Hsum. unfold calculateFairnessScore.
  destruct (Nat.leb_spec (length counts) 1) as [Hle|Hgt].
  - destruct counts as [|c [|c' rest]]; [done| |simpl in Hle; lia].
    by rewrite fairness_spec_single.
  - rewrite sumCounts_sum_list.
    destruct (Nat.eqb_spec (sum_list counts) 0) as [E|_]; [lia|].
    unfold fairness_spec, stddev, mean.
    rewrite fold_left_squares, Rplus_0_l. done.
Qed.

(** ** Weights are floored at one tenth *)

Lemma weigh_floor (agent : Agent) : (1 # 10 <= aw_weight (weigh agent))%Q.
Proof. unfold weigh. simpl. apply Q.le_max_l. Qed.

Lemma calculateAgentWeights_floor (agents : list Agent) :
  Forall (λ w, (1 # 10 <= aw_weight w)%Q) (calculateAgentWeights agents).
Proof.
  rewrite calculateAgentWeights_perm. apply Forall_forall. intros w Hw.
  apply list_elem_of_In, in_map_iff in Hw as (agent & <- & _). apply weigh_floor.
Qed.

Lemma weightedLoop_floored now input agents W ws idx groups final :
  Forall (λ w, (1 # 10 <= aw_weight w)%Q) ws →
  weightedLoop now input agents W ws idx = Some (groups, final) →
  Forall weightFloored groups.
Proof.
  intros Hws Hloop. apply Forall_forall. intros g Hg.
  apply list_elem_of_lookup in Hg as [i Hi].
  destruct (weightedLoop_final _ _ _ _ _ _ _ _ Hloop) as (Hlen & _ & _).
  pose proof (lookup_lt_Some _ _ _ Hi) as Hlt. rewrite Hlen in Hlt.
  destruct (lookup_lt_is_Some_2 ws i Hlt) as [w Hw].
  destruct (weightedLoop_lookup _ _ _ _ _ _ _ _ Hloop i w Hw)
    as (g' & a & Hg' & _ & _ & _ & _ & Hweight & _).
  rewrite Hi in Hg'. injection Hg' as <-.
  intros q Hq. rewrite Hweight in Hq. injection Hq as <-.
  rewrite Forall_forall in Hws. apply Hws. by eapply list_elem_of_lookup_2.
Qed.

Lemma weightedDistribution_floored now input agents groups :
  agents ≠ [] →
  weightedDistribution now input agents = Some groups →
  Forall weightFloored groups.
Proof.
  intros Hne Hgroups.
  destruct (weightedDistribution_closed now input agents Hne)
    as (top & others & final & Hloop & Hclosed).
  rewrite Hclosed in Hgroups. injection Hgroups as <-.
  pose proof (weightedLoop_floored _ _ _ _ _ _ _ _
                (calculateAgentWeights_floor agents) Hloop) as Hall.
  destruct (final <? length input); [|done].
  apply Forall_cons in Hall as [Htop Hothers]. by apply Forall_cons.
Qed.

(** ** Every strategy returns a plan *)

Lemma runMethod_plan (method : Method) (now : Time) (input : list InputRecord)
    (agents : list Agent) :
  agents ≠ [] →
  ∃ groups,
    runMethod method now input agents = Some groups
    ∧ length groups = length agents
    ∧ concat (map records groups) ≡ₚ map (assign now) input
    ∧ length input ≤ sum_list (map assignedCount groups)
    ∧ Forall weightFloored groups.
Proof.
  intros Hne. destruct method; simpl.
  - eexists. split; [done|].
    destruct (equalDistribution_partitions now input agents Hne) as (Hp & Hs & _).
    rewrite Hs. split; [|split; [done|split; [done|]]].
    + rewrite equalDistribution_closed. apply length_imap.
    + rewrite equalDistribution_closed. apply Forall_forall. intros g Hg.
      apply list_elem_of_lookup in Hg as [i Hi]. rewrite list_lookup_imap in Hi.
      destruct (agents !! i); [|done]. injection Hi as <-. by intros q.
  - destruct (weightedDistribution_records now input agents Hne)
      as (groups & Hg & Hp & Hs & Hl).
    exists groups. repeat split; try done.
    by eapply weightedDistribution_floored.
  - destruct (priorityDistribution_partitions now input agents Hne)
      as (groups & Hg & Hp & Hs & _).
    exists groups. rewrite Hs. split; [done|].
    rewrite priorityDistribution_closed in Hg by done. injection Hg as <-.
    split; [|split; [done|split; [done|]]].
    + rewrite length_imap. apply Permutation_length, js_sort_perm.
    + apply Forall_forall. intros g Hg.
      apply list_elem_of_lookup in Hg as [i Hi]. rewrite list_lookup_imap in Hi.
      destruct (sortAgents agents !! i); [|done]. injection Hi as <-. by intros q.
Qed.

Lemma distribute_plan (clock : Clock) (input : list InputRecord)
    (agents : list Agent) (strategy : string) (method : Method) :
  input ≠ [] → List.filter isActive agents ≠ [] →
  selected strategy = Some method →
  ∃ groups,
    runMethod method (stamp clock) input (List.filter isActive agents) = Some groups
    ∧ distribute clock (Some input) (Some agents) strategy
      = Resolved (Plan groups
          (generateSummary groups (length input) (endTime clock - startTime clock))
          strategy (endTime clock - startTime clock)).
Proof.
  intros Hin Hact Hsel.
  destruct (runMethod_plan method (stamp clock) input _ Hact) as (groups & Hrun & _).
  exists groups. split; [done|].
  by rewrite (distribute_selected _ _ _ _ method), Hrun.
Qed.

(** ** The rounded share is not negative *)




(** ** The store: finding and replacing a record *)

Lemma findGroup_Some (user : ObjectId) (groups : list Group) (i : nat) (g : Group) :
  findGroup user groups = Some (i, g) → groups !! i = Some g ∧ agentId g = user.
Proof.
  revert i. induction groups as [|g0 rest IH]; intros i; simpl; [done|].
  destruct (Nat.eqb_spec (agentId g0) user) as [Heq|Hne].
  - by intros [= <- <-].
  - destruct (findGroup user rest) as [[j found]|]; [|done]. simpl.
    intros [= <- <-]. by apply IH.
Qed.

Lemma findGroup_insert (user : ObjectId) (groups : list Group) (i : nat)
    (g g' : Group) :
  findGroup user groups = Some (i, g) → agentId g' = agentId g →
  findGroup user (<[i := g']> groups) = Some (i, g').
Proof.
  revert i. induction groups as [|g0 rest IH]; intros i; simpl; [done|].
  destruct (Nat.eqb_spec (agentId g0) user) as [Heq|Hne].
  - intros [= <- <-] Hid. simpl. rewrite Hid, Heq, Nat.eqb_refl. done.
  - destruct (findGroup user rest) as [[j found]|] eqn:Hrest; [|done]. simpl.
    intros [= <- <-] Hid. simpl.
    destruct (Nat.eqb_spec (agentId g0) user); [done|].
    by rewrite (IH j eq_refl Hid).
Qed.

Lemma preSave_agents (d : Distribution) : agents (preSave d) = agents d.
Proof. unfold preSave. by destruct (agents d) eqn:E. Qed.

Lemma preSave_totalRecords (d : Distribution) :
  totalRecords (preSave d) = totalRecords d.
Proof. unfold preSave. by destruct (agents d) eqn:E. Qed.

Lemma updateRecordStatus_ok (now : Time) (db : Db) (user id : ObjectId) (idx : nat)
    (status' : Status) (notes' : option string) (d : Distribution) (groupIdx : nat)
    (g : Group) (record : Rec) :
  distributions db !! id = Some d →
  findGroup user (agents d) = Some (groupIdx, g) →
  records g !! idx = Some record →
  notesValid (setStatus now status' notes' record) = true →
  updateRecordStatus now db user id (Z.of_nat idx) status' notes'
  = (Json 200 "Record status updated successfully",
     {| users := updatedUsers db user (status record) status';
        distributions :=
          <[id := updatedDistribution now d groupIdx g idx status' notes' record]>
            (distributions db) |}).
Proof.
  intros Hd Hg Hrec Hvalid. unfold updateRecordStatus.
  rewrite Hd, Hg. pose proof (lookup_lt_Some _ _ _ Hrec) as Hlt.
  destruct (Z.ltb_spec (Z.of_nat idx) 0); [lia|].
  destruct (Z.leb_spec (Z.of_nat (length (records g))) (Z.of_nat idx)); [lia|].
  simpl. rewrite Nat2Z.id, Hrec, Hvalid. done.
Qed.

Lemma updatedDistribution_lookup (now : Time) (d : Distribution) (user : ObjectId)
    (groupIdx : nat) (g : Group) (idx : nat) (status' : Status)
    (notes' : option string) (record : Rec) :
  findGroup user (agents d) = Some (groupIdx, g) →
  records g !! idx = Some record →
  let g' := withRecords (<[idx := setStatus now status' notes' record]> (records g)) g in
  findGroup user
    (agents (updatedDistribution now d groupIdx g idx status' notes' record))
  = Some (groupIdx, g')
  ∧ records g' !! idx = Some (setStatus now status' notes' record).
Proof.
  intros Hg Hrec. cbv zeta. unfold updatedDistribution.
  rewrite preSave_agents. simpl. split.
  - by apply (findGroup_insert _ _ _ g).
  - apply list_lookup_insert_eq. by eapply lookup_lt_Some.
Qed.

Lemma incTasks_0 (u : Agent) : incTasks 0 0 u = u.
Proof. destruct u. unfold incTasks. simpl. f_equal; lia. Qed.

Lemma incTasks_incTasks (a c a' c' : Z) (u : Agent) :
  incTasks a c (incTasks a' c' u) = incTasks (a' + a) (c' + c) u.
Proof. unfold incTasks. simpl. f_equal; lia. Qed.

(** ** Deleting a distribution *)

Lemma foldl_releaseAgent_lookup (groups : list Group) (us : gmap ObjectId Agent)
    (uid : ObjectId) :
  foldl releaseAgent us groups !! uid
  = incTasks (- Z.of_nat (releasedAssigned uid groups))
             (- Z.of_nat (releasedCompleted uid groups)) <$> us !! uid.
Proof.
  revert us. induction groups as [|g rest IH]; intros us.
  - simpl. destruct (us !! uid) as [u|]; [|done]. simpl. by rewrite incTasks_0.
  - simpl. rewrite IH. unfold releaseAgent at 1, findByIdAndUpdate.
    unfold releasedAssigned, releasedCompleted, groupsOf. simpl.
    destruct (Nat.eqb_spec (agentId g) uid) as [->|Hne].
    + rewrite lookup_alter_eq. destruct (us !! uid) as [u|]; [|done]. simpl.
      rewrite incTasks_incTasks. f_equal. f_equal; lia.
    + by rewrite lookup_alter_ne.
Qed.

Lemma groupsOf_NoDup (groups : list Group) (g : Group) :
  NoDup (map agentId groups) → g ∈ groups → groupsOf (agentId g) groups = [g].
Proof.
  unfold groupsOf. induction groups as [|g0 rest IH]; simpl.
  - intros _ Hg. by apply elem_of_nil in Hg.
  - intros Hnd Hg. apply NoDup_cons in Hnd as [Hnotin Hnd].
    apply elem_of_cons in Hg as [->|Hg].
    + rewrite Nat.eqb_refl. f_equal.
      clear IH Hnd. induction rest as [|g1 rest IH]; simpl; [done|].
      simpl in Hnotin. apply not_elem_of_cons in Hnotin as [Hne Hnotin].
      destruct (Nat.eqb_spec (agentId g1) (agentId g0)); [congruence|].
      by apply IH.
    + destruct (Nat.eqb_spec (agentId g0) (agentId g)) as [Heq|Hne].
      * exfalso. apply Hnotin. rewrite Heq.
        apply list_elem_of_In, in_map, list_elem_of_In, Hg.
      * by apply IH.
Qed.

(** ** The summary of a stored distribution *)




Lemma preSave_idemp (d : Distribution) : preSave (preSave d) = preSave d.
Proof.
  unfold preSave at 1. rewrite preSave_agents.
  destruct (agents d) as [|g rest] eqn:E; [done|].
  unfold preSave. rewrite E. done.
Qed.

(** ** Redistribution *)

Lemma sortInsert_map {A B} (f : A → B) (cmp : A → A → Q) (cmp' : B → B → Q)
    (x : A) (l : list A) :
  (∀ a b, cmp' (f a) (f b) = cmp a b) →
  sortInsert cmp' (f x) (map f l) = map f (sortInsert cmp x l).
Proof.
  intros Hcmp. induction l as [|y ys IH]; simpl; [done|].
  unfold placedAfter. rewrite Hcmp.
  destruct (negb (Qle_bool (cmp x y) 0)); simpl; [by rewrite IH|done].
Qed.

Lemma js_sort_map {A B} (f : A → B) (cmp : A → A → Q) (cmp' : B → B → Q)
    (l : list A) :
  (∀ a b, cmp' (f a) (f b) = cmp a b) →
  js_sort cmp' (map f l) = map f (js_sort cmp l).
Proof.
  intros Hcmp. induction l as [|x l IH]; simpl; [done|].
  by rewrite IH, (sortInsert_map f cmp cmp').
Qed.

Lemma agentWorkloads_closed (groups : list Group) :
  js_sort byLoad (map (λ agent, (agent, currentLoad agent)) groups)
  = map (λ agent, (agent, currentLoad agent)) (js_sort byCurrentLoad groups).
Proof. by apply (js_sort_map _ byCurrentLoad). Qed.

Lemma sortByLoad_closed (groups : list Group) :
  sortByLoad groups = js_sort byCurrentLoad groups.
Proof.
  unfold sortByLoad. rewrite agentWorkloads_closed, map_map. simpl. apply map_id.
Qed.

Lemma byCurrentLoad_key (a b : Group) :
  (byCurrentLoad a b == - numN (currentLoad b) - - numN (currentLoad a))%Q.
Proof. unfold byCurrentLoad. ring. Qed.

Lemma sortByLoad_perm (groups : list Group) : sortByLoad groups ≡ₚ groups.
Proof. rewrite sortByLoad_closed. apply js_sort_perm. Qed.

Lemma sortByLoad_sorted (groups : list Group) :
  StronglySorted (λ a b, currentLoad a ≤ currentLoad b) (sortByLoad groups).
Proof.
  rewrite sortByLoad_closed.
  eapply StronglySorted_impl;
    [|apply (js_sort_descending _ (λ g, - numN (currentLoad g))%Q), byCurrentLoad_key].
  intros a b Hab. simpl in Hab. apply numN_le. lra.
Qed.

Lemma sortByLoad_stable (groups : list Group) (c : nat) :
  List.filter (λ g, currentLoad g =? c) (sortByLoad groups)
  = List.filter (λ g, currentLoad g =? c) groups.
Proof.
  rewrite sortByLoad_closed.
  apply (js_sort_stable _ (λ g, - numN (currentLoad g))%Q).
  - apply byCurrentLoad_key.
  - intros a b Ha%Nat.eqb_eq Hb%Nat.eqb_eq. by rewrite Ha, Hb.
Qed.

Lemma pushAll_pushTask (now : Time) (tasks : list Rec) (g : Group) (load : nat) :
  pushAll (pushTask now) tasks (g, load)
  = (pushAll (λ task, pushRecord (reassign now task)) tasks g, load + length tasks).
Proof.
  revert g load. unfold pushAll.
  induction tasks as [|task rest IH]; intros g load; simpl.
  - by rewrite Nat.add_0_r.
  - unfold pushTask at 2. simpl. rewrite IH. f_equal. lia.
Qed.

Lemma redistributeTasks_closed (now : Time) (tasks : list Rec)
    (availableAgents : list Agent) (d : Distribution) :
  tasks ≠ [] → agents d ≠ [] →
  redistributeTasks now (Some tasks) availableAgents d
  = Some (withAgents
            (imap (redistributedGroup now tasks (length (agents d)))
                  (sortByLoad (agents d))) d).
Proof.
  intros Htasks Hgroups. unfold redistributeTasks.
  destruct tasks as [|t0 tasks']; [done|]. set (tasks := t0 :: tasks').
  assert (length (sortByLoad (agents d)) = length (agents d)) as Hlen
    by (by rewrite sortByLoad_perm).
  rewrite agentWorkloads_closed, <- sortByLoad_closed.
  set (workloads := map _ (sortByLoad (agents d))).
  assert (length workloads = length (agents d)) as Hlen'
    by (unfold workloads; by rewrite length_map).
  assert (workloads ≠ []) as Hne.
  { intros E. rewrite E in Hlen'. destruct (agents d); done. }
  pose proof (roundRobin_closed (pushTask now) tasks workloads 0 Hne) as Hrr.
  rewrite Nat.Div0.mod_0_l in Hrr. rewrite Hrr. simpl. do 2 f_equal.
  rewrite Hlen'. apply list_eq. intros j.
  change (map fst ?l) with (fst <$> l). rewrite list_lookup_fmap, !list_lookup_imap.
  unfold workloads. change (map ?f ?l) with (f <$> l). rewrite list_lookup_fmap.
  destruct (sortByLoad (agents d) !! j) as [g|]; [|done]. simpl.
  rewrite pushAll_pushTask. simpl. by rewrite pushAll_pushRecord.
Qed.

(** * The claims *)

(** C2. Under strategy [equal], with [n] the quotient and [r] the
    remainder of the number of records by the number of active agents,
    the active agents in input order receive contiguous slices from the
    front of the record list: the agent at index [i] gets the [n + 1]
    (when [i < r]) or [n] records that start at offset [i * n + min i r].
    The largest and the smallest count differ by at most one, and ten
    records over three active agents give the counts [4; 3; 3]. *)
Theorem C2_equal_contiguous_balanced (clock : Clock) (input : list InputRecord)
    (agents : list Agent) :
  input ≠ [] → List.filter isActive agents ≠ [] →
  let activeAgents := List.filter isActive agents in
  let n := length input / length activeAgents in
  let r := length input mod length activeAgents in
  ∃ groups summary elapsed,
    distribute clock (Some input) (Some agents) "equal"
      = Resolved (Plan groups summary "equal" elapsed)
    ∧ length groups = length activeAgents
    ∧ (∀ i agent, activeAgents !! i = Some agent →
         ∃ g, groups !! i = Some g
              ∧ agentId g = _id agent
              ∧ assignedCount g = n + (if i <? r then 1 else 0)
              ∧ length (records g) = n + (if i <? r then 1 else 0)
              ∧ records g
                = map (assign (stamp clock))
                      (take (n + (if i <? r then 1 else 0))
                            (drop (i * n + Nat.min i r) input)))
    ∧ Math_max (map assignedCount groups) - Math_min (map assignedCount groups) ≤ 1
    ∧ (length input = 10 → length activeAgents = 3 →
       map assignedCount groups = [4; 3; 3]).
Proof.
  intros Hin Hact. cbv zeta.
  rewrite (distribute_selected clock input agents "equal" equal) by done.
  simpl runMethod. rewrite finish_plan, equalDistribution_closed.
  remember (List.filter isActive agents) as activeAgents eqn:Ha. clear Ha.
  set (n := length input / length activeAgents).
  set (r := length input mod length activeAgents).
  eexists _, _, _. split; [reflexivity|].
  assert (length activeAgents ≠ 0) as Hk by (by destruct activeAgents).
  split; [apply length_imap|]. split; [|split].
  - intros i agent Hi. exists (equalGroup (stamp clock) input n r i agent).
    rewrite list_lookup_imap, Hi.
    split; [done|]. split; [done|]. split; [done|]. split.
    + apply (equalGroup_count (stamp clock) input (length activeAgents)).
      by eapply lookup_lt_Some.
    + apply equalGroup_records.
  - apply spread_le_1.
    + destruct activeAgents; [done|]. done.
    + intros c c' Hc Hc'.
      apply list_elem_of_In, in_map_iff in Hc as (g & <- & Hg).
      apply list_elem_of_In, in_map_iff in Hc' as (g' & <- & Hg').
      apply list_elem_of_In, list_elem_of_lookup in Hg as [i Hi].
      apply list_elem_of_In, list_elem_of_lookup in Hg' as [i' Hi'].
      rewrite list_lookup_imap in Hi, Hi'.
      destruct (activeAgents !! i); [|done].
      destruct (activeAgents !! i'); [|done].
      injection Hi as <-. injection Hi' as <-. simpl. unfold equalShare.
      destruct (i <? r), (i' <? r); lia.
  - intros Hten Hthree. subst n r. rewrite Hten, Hthree.
    destruct activeAgents as [|a [|b [|c [|d rest]]]]; try done.
Qed.

Lemma C2_witness :
  ∃ groups summary elapsed,
    distribute clock0 (Some tenRows) (Some threeAgents) "equal"
      = Resolved (Plan groups summary "equal" elapsed)
    ∧ map assignedCount groups = [4; 3; 3].
Proof.
  destruct (C2_equal_contiguous_balanced clock0 tenRows threeAgents)
    as (groups & summary & elapsed & Hplan & _ & _ & _ & Hten); [done|done|].
  exists groups, summary, elapsed. split; [exact Hplan|].
  apply Hten; reflexivity.
Defined.



(** The partition property holds for the equal and the priority
    strategy, and for the name of no strategy, which runs [equal]. *)
Lemma distribute_partitions_unweighted (clock : Clock) (input : list InputRecord)
    (agents : list Agent) (strategy : string) (method : Method) :
  input ≠ [] → List.filter isActive agents ≠ [] →
  selected strategy = Some method → method ≠ weighted →
  ∃ groups summary elapsed,
    distribute clock (Some input) (Some agents) strategy
      = Resolved (Plan groups summary strategy elapsed)
    ∧ partitions (stamp clock) input groups.
Proof.
  intros Hin Hact Hsel Hmethod.
  rewrite (distribute_selected _ _ _ _ method) by done.
  destruct method; [|done|]; simpl runMethod.
  - eexists _, _, _. split; [apply finish_plan|].
    by apply equalDistribution_partitions.
  - destruct (priorityDistribution_partitions (stamp clock) input _ Hact)
      as (groups & -> & Hp).
    eexists _, _, _. split; [apply finish_plan|done].
Qed.

(** Under the weighted strategy no record is lost or duplicated. *)
Lemma distribute_weighted_records (clock : Clock) (input : list InputRecord)
    (agents : list Agent) :
  input ≠ [] → List.filter isActive agents ≠ [] →
  ∃ groups summary elapsed,
    distribute clock (Some input) (Some agents) "weighted"
      = Resolved (Plan groups summary "weighted" elapsed)
    ∧ concat (map records groups) ≡ₚ map (assign (stamp clock)) input.
Proof.
  intros Hin Hact.
  rewrite (distribute_selected _ _ _ _ weighted) by done. simpl runMethod.
  destruct (weightedDistribution_records (stamp clock) input _ Hact)
    as (groups & -> & Hp & _).
  eexists _, _, _. split; [apply finish_plan|done].
Qed.

(** C1. The partition property fails under the weighted strategy: one
    record over two agents that never had a task gives both agents the
    share [round(1 * 0.5) = 1]; the second agent's slice is empty but
    its [assignedCount] is 1, and the counts add up to 2. *)
Theorem C1_weighted_count_without_record :
  ∃ groups summary elapsed,
    distribute clock0 (Some oneRow) (Some twoAgents) "weighted"
      = Resolved (Plan groups summary "weighted" elapsed)
    ∧ map assignedCount groups = [1; 1]
    ∧ map (λ g, length (records g)) groups = [1; 0]
    ∧ sum_list (map assignedCount groups) = 2
    ∧ length oneRow = 1
    ∧ ¬ partitions (stamp clock0) oneRow groups.
Proof.
  destruct (distribute_plan clock0 oneRow twoAgents "weighted" weighted)
    as (groups & Hrun & Hplan); [done|done|done|].
  eexists groups, _, _. split; [exact Hplan|].
  vm_compute in Hrun. injection Hrun as <-.
  repeat split; try reflexivity.
  intros (_ & Hsum & _). vm_compute in Hsum. discriminate.
Qed.








(** The guards of [distribute]: missing or empty records, missing or
    empty agents, and no active agent are rejected, in this order. *)
Lemma distribute_no_records (clock : Clock) (records : option (list InputRecord))
    (agents : option (list Agent)) (strategy : string) :
  records = None ∨ records = Some [] →
  distribute clock records agents strategy
  = Rejected (Error "No records to distribute").
Proof. by intros [-> | ->]. Qed.

Lemma distribute_no_agents (clock : Clock) (input : list InputRecord)
    (agents : option (list Agent)) (strategy : string) :
  input ≠ [] → agents = None ∨ agents = Some [] →
  distribute clock (Some input) agents strategy
  = Rejected (Error "No agents available for distribution").
Proof. intros Hin [-> | ->]; by destruct input. Qed.

Lemma distribute_no_active (clock : Clock) (input : list InputRecord)
    (agents : list Agent) (strategy : string) :
  input ≠ [] → List.filter isActive agents = [] →
  distribute clock (Some input) (Some agents) strategy
  = Rejected (match agents with
              | [] => Error "No agents available for distribution"
              | _ => Error "No active agents available"
              end).
Proof.
  intros Hin Hact. destruct input; [done|]. destruct agents; [done|].
  unfold distribute. by rewrite Hact.
Qed.

(** For a name that selects a strategy function, [distribute] rejects
    exactly in these three cases, and resolves to a plan otherwise. *)
Lemma distribute_rejects_iff (clock : Clock) (records : option (list InputRecord))
    (agents : option (list Agent)) (strategy : string) (method : Method) :
  selected strategy = Some method →
  (∃ e, distribute clock records agents strategy = Rejected e)
  ↔ (records = None ∨ records = Some [])
    ∨ (agents = None ∨ agents = Some [])
    ∨ (∃ l, agents = Some l ∧ List.filter isActive l = []).
Proof.
  intros Hsel. split.
  - intros [e He].
    destruct records as [[|r0 input]|]; [by left; right| |by left; left].
    destruct agents as [agents|]; [|by right; left; left].
    destruct (List.filter isActive agents) as [|b0 active] eqn:Hact.
    { right. right. by exists agents. }
    destruct (distribute_plan clock (r0 :: input) agents strategy method)
      as (groups & _ & Hplan); [done|by rewrite Hact|done|].
    by rewrite Hplan in He.
  - intros [Hr|[Ha|(l & -> & Hact)]].
    + eexists. by apply distribute_no_records.
    + destruct records as [[|r0 input]|];
        [eexists; apply distribute_no_records; by right|
        |eexists; apply distribute_no_records; by left].
      eexists. by apply distribute_no_agents.
    + destruct records as [[|r0 input]|];
        [eexists; apply distribute_no_records; by right|
        |eexists; apply distribute_no_records; by left].
      eexists. by apply distribute_no_active.
Qed.

(** A name that is neither a strategy nor a member of
    [Object.prototype] runs the equal strategy. *)
Lemma distribute_unknown_is_equal (clock : Clock) (input : list InputRecord)
    (agents : list Agent) (strategy : string) :
  strategies strategy = Undefined →
  input ≠ [] → List.filter isActive agents ≠ [] →
  distribute clock (Some input) (Some agents) strategy
  = finish clock input strategy
      (Some (equalDistribution (stamp clock) input (List.filter isActive agents))).
Proof.
  intros Hs Hin Hact.
  rewrite (distribute_selected _ _ _ _ equal); [done..|].
  unfold selected. by rewrite Hs.
Qed.

(** C5. A strategy name that is a member of [Object.prototype] is
    found by the lookup and does not fall back to [equal]: with records
    and active agents present, ["toString"] makes [distribute] reject
    with a [TypeError], and ["constructor"] makes it resolve to an
    object whose groups are the raw record array. *)
Theorem C5_inherited_strategy_name :
  strategies "toString" = Inherited "toString"
  ∧ distribute clock0 (Some tenRows) (Some threeAgents) "toString"
    = Rejected TypeError
  ∧ distribute clock0 (Some tenRows) (Some threeAgents) "constructor"
    = Resolved (Unassigned tenRows "constructor" 5).
Proof. split; [reflexivity|]. split; vm_compute; reflexivity. Qed.

(** C7, the claim as written fails: a record that was completed at
    time 50 and is then set to [failed] keeps its [completedAt]. *)
Lemma C7_counterexample :
  ∃ db' d' g' record',
    updateRecordStatus 200%Z sampleDb 1 7 1%Z failed None
      = (Json 200 "Record status updated successfully", db')
    ∧ distributions db' !! 7 = Some d'
    ∧ agents d' !! 0 = Some g'
    ∧ records g' !! 1 = Some record'
    ∧ status doneRecord = completed
    ∧ status record' = failed
    ∧ completedAt record' = Some 50%Z.
Proof.
  eexists _, _, _, _. split; [|split; [|split; [|split]]].
  - apply (updateRecordStatus_ok 200%Z sampleDb 1 7 1 failed None
             sampleDistribution 0 annGroup doneRecord); reflexivity.
  - simpl. apply lookup_insert_eq.
  - reflexivity.
  - reflexivity.
  - done.
Qed.

(** C7, amended. A status update that succeeds sets the record's
    status; on a transition into [completed] from another state it sets
    [completedAt] to the current time and adds exactly 1 to the caller's
    [completedTasks]; on a transition out of [completed] it leaves
    [completedAt] as it was and subtracts exactly 1; a transition that
    does not cross the completed boundary leaves the counters unchanged.
    [assignedTasks] and the other users are never touched. A second
    update that takes the record from [completed] to another state
    restores the counter (round trip). *)
Theorem C7_status_counters (now : Time) (db : Db) (user id : ObjectId) (idx : nat)
    (status' : Status) (notes' : option string) (d : Distribution) (groupIdx : nat)
    (g : Group) (record : Rec) (u : Agent) :
  distributions db !! id = Some d →
  findGroup user (agents d) = Some (groupIdx, g) →
  records g !! idx = Some record →
  users db !! user = Some u →
  notesValid (setStatus now status' notes' record) = true →
  ∃ db' d' g' record' u',
    updateRecordStatus now db user id (Z.of_nat idx) status' notes'
      = (Json 200 "Record status updated successfully", db')
    ∧ distributions db' !! id = Some d'
    ∧ findGroup user (agents d') = Some (groupIdx, g')
    ∧ records g' !! idx = Some record'
    ∧ status record' = status'
    ∧ (status' = completed → completedAt record' = Some now)
    ∧ (status' ≠ completed → completedAt record' = completedAt record)
    ∧ users db' !! user = Some u'
    ∧ assignedTasks u' = assignedTasks u
    ∧ (status record ≠ completed → status' = completed →
       completedTasks u' = (completedTasks u + 1)%Z)
    ∧ (status record = completed → status' ≠ completed →
       completedTasks u' = (completedTasks u - 1)%Z)
    ∧ ((status record = completed ↔ status' = completed) →
       completedTasks u' = completedTasks u)
    ∧ (∀ other, other ≠ user → users db' !! other = users db !! other)
    ∧ (status record ≠ completed → status' = completed →
       ∀ later status'', status'' ≠ completed →
         ∃ db'' u'',
           updateRecordStatus later db' user id (Z.of_nat idx) status'' None
             = (Json 200 "Record status updated successfully", db'')
           ∧ users db'' !! user = Some u''
           ∧ completedTasks u'' = completedTasks u
           ∧ assignedTasks u'' = assignedTasks u).
Proof.
  intros Hd Hg Hrec Hu Hvalid.
  destruct (updatedDistribution_lookup now d user groupIdx g idx status' notes' record
              Hg Hrec) as [Hg' Hrec'].
  set (d' := updatedDistribution now d groupIdx g idx status' notes' record) in *.
  set (g' := withRecords _ g) in *.
  set (record' := setStatus now status' notes' record) in *.
  set (db' := {| users := updatedUsers db user (status record) status';
                 distributions := <[id := d']> (distributions db) |}).
  assert (∃ u', users db' !! user = Some u'
                ∧ assignedTasks u' = assignedTasks u
                ∧ (status record ≠ completed → status' = completed →
                   completedTasks u' = (completedTasks u + 1)%Z)
                ∧ (status record = completed → status' ≠ completed →
                   completedTasks u' = (completedTasks u - 1)%Z)
                ∧ ((status record = completed ↔ status' = completed) →
                   completedTasks u' = completedTasks u)) as (u' & Hu' & Ha & Hin & Hout & Hsame).
  { simpl. unfold updatedUsers, findByIdAndUpdate.
    repeat case_decide; rewrite ?lookup_alter_eq, ?Hu; simpl;
      eexists; (split; [reflexivity|]); simpl;
      repeat split; intros; try tauto; lia. }
  assert (∀ other, other ≠ user → users db' !! other = users db !! other) as Hothers.
  { intros other Hne. simpl. unfold updatedUsers, findByIdAndUpdate.
    repeat case_decide; by rewrite ?lookup_alter_ne. }
  exists db', d', g', record', u'.
  split; [by apply updateRecordStatus_ok|].
  split; [simpl; apply lookup_insert_eq|].
  split; [done|]. split; [done|]. split; [done|].
  split; [intros ->; done|].
  split; [intros Hne; subst record'; simpl; by case_decide|].
  split; [done|]. split; [done|]. split; [done|]. split; [done|].
  split; [done|]. split; [done|].
  intros Hold Hnew later status'' Hlater.
  assert (distributions db' !! id = Some d') as Hd' by (simpl; apply lookup_insert_eq).
  assert (notesValid (setStatus later status'' None record') = true) as Hvalid'
    by exact Hvalid.
  eexists _, (incTasks 0 (-1) u').
  split; [by apply (updateRecordStatus_ok later db' user id idx status'' None d'
                      groupIdx g' record')|].
  assert (status record' = completed) as Hst by (by subst record').
  cbn [users]. unfold updatedUsers at 1. unfold findByIdAndUpdate. rewrite Hst.
  destruct (decide (completed ≠ completed ∧ status'' = completed)) as [[Hc _]|_];
    [by destruct Hc|].
  destruct (decide (completed = completed ∧ status'' ≠ completed)) as [_|Hn];
    [|exfalso; tauto].
  rewrite lookup_alter_eq, Hu'. simpl.
  split; [reflexivity|]. simpl. specialize (Hin Hold Hnew). lia.
Qed.

Lemma C7_witness :
  ∃ db' u' db'' u'',
    updateRecordStatus 200%Z sampleDb 1 7 0%Z completed None
      = (Json 200 "Record status updated successfully", db')
    ∧ users db' !! 1 = Some u' ∧ completedTasks u' = 3%Z
    ∧ updateRecordStatus 300%Z db' 1 7 0%Z failed None
      = (Json 200 "Record status updated successfully", db'')
    ∧ users db'' !! 1 = Some u''
    ∧ completedTasks u'' = 2%Z ∧ assignedTasks u'' = 5%Z.
Proof.
  destruct (C7_status_counters 200%Z sampleDb 1 7 0 completed None
              sampleDistribution 0 annGroup workedRecord busyAgent)
    as (db' & d' & g' & record' & u' & Hup & _ & _ & _ & _ & _ & _ & Hu' & _
        & Hin & _ & _ & _ & Hround); try reflexivity.
  destruct (Hround ltac:(done) eq_refl 300%Z failed ltac:(done))
    as (db'' & u'' & Hup' & Hu'' & Hc & Ha).
  exists db', u', db'', u''.
  split; [exact Hup|]. split; [exact Hu'|].
  split; [exact (Hin ltac:(done) eq_refl)|].
  split; [exact Hup'|]. split; [exact Hu''|]. split; [exact Hc|exact Ha].
Defined.

(** C10. [deleteDistribution] on an id that is absent answers 404 and
    changes nothing. On an existing distribution it answers 200,
    removes the distribution (and with it all its records) and no
    other, and takes from every user, for each of the user's groups in
    it, the group's [assignedCount] off [assignedTasks] and the number
    of its records in status [completed] off [completedTasks]; with one
    group per agent, that is exactly that group's counts. *)
Theorem C10_deleteDistribution (db : Db) (id : ObjectId) :
  match distributions db !! id with
  | None => deleteDistribution db id = (Json 404 "Distribution not found", db)
  | Some d =>
      ∃ db',
        deleteDistribution db id = (Json 200 "Distribution deleted successfully", db')
        ∧ distributions db' !! id = None
        ∧ (∀ other, other ≠ id → distributions db' !! other = distributions db !! other)
        ∧ (∀ uid,
             users db' !! uid
             = incTasks (- Z.of_nat (releasedAssigned uid (agents d)))
                        (- Z.of_nat (releasedCompleted uid (agents d)))
                 <$> users db !! uid)
        ∧ (NoDup (map agentId (agents d)) →
           ∀ g u, g ∈ agents d → users db !! agentId g = Some u →
             ∃ u', users db' !! agentId g = Some u'
                   ∧ assignedTasks u' = (assignedTasks u - Z.of_nat (assignedCount g))%Z
                   ∧ completedTasks u'
                     = (completedTasks u - Z.of_nat (completedCount g))%Z)
  end.
Proof.
  unfold deleteDistribution. destruct (distributions db !! id) as [d|] eqn:Hd; [|done].
  eexists. split; [reflexivity|]. simpl.
  split; [apply lookup_delete_eq|].
  split; [intros other Hne; by apply lookup_delete_ne|].
  split; [intros uid; apply foldl_releaseAgent_lookup|].
  intros Hnd g u Hg Hu. rewrite foldl_releaseAgent_lookup, Hu. simpl.
  eexists. split; [reflexivity|].
  unfold releasedAssigned, releasedCompleted. rewrite (groupsOf_NoDup _ g) by done.
  simpl. lia.
Qed.

Lemma C10_example :
  completedCount annGroup = 2 ∧ assignedCount annGroup = 4
  ∧ ∃ db' u',
      deleteDistribution sampleDb 7
        = (Json 200 "Distribution deleted successfully", db')
      ∧ distributions db' !! 7 = None
      ∧ users db' !! 1 = Some u'
      ∧ assignedTasks u' = (5 - 4)%Z ∧ completedTasks u' = (2 - 2)%Z.
Proof.
  split; [reflexivity|]. split; [reflexivity|].
  pose proof (C10_deleteDistribution sampleDb 7) as H.
  change (distributions sampleDb !! 7) with (Some sampleDistribution) in H.
  destruct H as (db' & Hdel & Hgone & _ & _ & Hone).
  assert (NoDup (map agentId (agents sampleDistribution))) as Hnd.
  { simpl. apply NoDup_singleton. }
  destruct (Hone Hnd annGroup busyAgent)
    as (u' & Hu' & Ha & Hc); [apply list_elem_of_here|reflexivity|].
  exists db', u'. split; [exact Hdel|]. split; [exact Hgone|].
  split; [exact Hu'|]. split; [exact Ha|exact Hc].
Defined.




(** C9, the claim as written fails: a group that enters with a count
    that is not the length of its record list leaves the same way. *)
Lemma C9_counterexample :
  ∃ d' g',
    redistributeTasks 200%Z (Some [ failedRecord ]) [] phantomDistribution = Some d'
    ∧ agents d' !! 0 = Some g'
    ∧ assignedCount g' = 2
    ∧ length (records g') = 1.
Proof. eexists _, _. split; [vm_compute; reflexivity|]. repeat split. Qed.

(** C9, amended. For a non-empty list of failed records and a
    distribution with at least one group, [redistributeTasks] takes as
    the live load of a group the number of its records in status
    [pending] or [in-progress], serves the groups in ascending order of
    live load (ties in original group order), and hands the failed
    records out one by one round robin from the least loaded group: the
    record at position [p] goes to the group at position [p mod k] of
    that order, behind the records the group already has, with status
    [pending], the current time as [assignedAt] and [redistributed =
    true]. Every group's [assignedCount] grows by the number of records
    it received, so it is the length of the new record list whenever it
    was the length of the old one. The result is the same distribution
    with these groups. With live loads 5, 1 and 3 and two failed
    records, the first goes to the group of load 1 and the second to
    the group of load 3. *)
Theorem C9_redistribute_round_robin (now : Time) (tasks : list Rec)
    (availableAgents : list Agent) (d : Distribution) :
  tasks ≠ [] → agents d ≠ [] →
  let order := sortByLoad (agents d) in
  let k := length order in
  (∀ r, isLive r = true ↔ status r = pending ∨ status r = in_progress)
  ∧ (∀ g, currentLoad g = length (List.filter isLive (records g)))
  ∧ order ≡ₚ agents d
  ∧ StronglySorted (λ a b, currentLoad a ≤ currentLoad b) order
  ∧ (∀ c, List.filter (λ g, currentLoad g =? c) order
          = List.filter (λ g, currentLoad g =? c) (agents d))
  ∧ ∃ d',
      redistributeTasks now (Some tasks) availableAgents d = Some d'
      ∧ d' = withAgents (agents d') d
      ∧ length (agents d') = k
      ∧ (∀ j g, order !! j = Some g →
           ∃ g', agents d' !! j = Some g'
                 ∧ agentId g' = agentId g
                 ∧ records g' = records g ++ map (reassign now) (deal k j 0 tasks)
                 ∧ assignedCount g' = assignedCount g + length (deal k j 0 tasks)
                 ∧ (assignedCount g = length (records g) →
                    assignedCount g' = length (records g')))
      ∧ (∀ p task, tasks !! p = Some task →
           ∃ g g', order !! (p mod k) = Some g
                   ∧ agents d' !! (p mod k) = Some g'
                   ∧ records g' !! (length (records g) + p / k)
                     = Some (reassign now task)
                   ∧ status (reassign now task) = pending
                   ∧ assignedAt (reassign now task) = now
                   ∧ redistributed (reassign now task) = true)
      ∧ (∀ g0 g1 g2 t1 t2,
           agents d = [g0; g1; g2] →
           currentLoad g0 = 5 → currentLoad g1 = 1 → currentLoad g2 = 3 →
           tasks = [t1; t2] →
           agents d' = [ pushRecord (reassign now t1) g1;
                         pushRecord (reassign now t2) g2; g0 ]).
Proof.
  intros Htasks Hgroups. cbv zeta.
  assert (length (sortByLoad (agents d)) = length (agents d)) as Hlen
    by (by rewrite sortByLoad_perm).
  assert (length (agents d) ≠ 0) as Hk by (by destruct (agents d)).
  split.
  { intros r. unfold isLive.
    destruct (status r); split; try done; try (intros _; by left);
      try (intros _; by right); intros [?|?]; done. }
  split; [done|]. split; [apply sortByLoad_perm|].
  split; [apply sortByLoad_sorted|]. split; [apply sortByLoad_stable|].
  rewrite redistributeTasks_closed, Hlen by done.
  eexists. split; [reflexivity|]. cbn [agents withAgents].
  split; [done|]. split; [by rewrite length_imap|]. split; [|split].
  - intros j g Hj. eexists. rewrite list_lookup_imap, Hj.
    split; [reflexivity|]. simpl. split; [done|]. split; [done|]. split; [done|].
    intros ->. by rewrite length_app, length_map.
  - intros p task Hp.
    assert (p mod length (agents d) < length (sortByLoad (agents d))) as Hlt
      by (rewrite Hlen; by apply Nat.mod_upper_bound).
    destruct (lookup_lt_is_Some_2 _ _ Hlt) as [g Hg].
    eexists g, _. rewrite list_lookup_imap, Hg. split; [done|].
    split; [reflexivity|]. split; [|done]. simpl.
    rewrite lookup_app_r by lia. rewrite Nat.add_comm, Nat.add_sub.
    change (map ?f ?l) with (f <$> l). rewrite list_lookup_fmap.
    by rewrite (deal_lookup _ _ _ task).
  - intros g0 g1 g2 t1 t2 Hd H0 H1 H2 ->. rewrite Hd.
    unfold sortByLoad. simpl. rewrite H0, H1, H2. 
    vm_compute js_sort. simpl. unfold redistributedGroup, pushRecord. simpl.
    rewrite !Nat.add_0_r, !app_nil_r. f_equal; [|f_equal]; [f_equal; lia..|].
    by destruct g0.
Qed.

Lemma C9_witness :
  ∃ d',
    redistributeTasks 200%Z (Some [ failedRecord; failedRecord ]) [] loadedDistribution
      = Some d'
    ∧ map agentId (agents d') = [2; 3; 1]
    ∧ map (λ g, length (records g)) (agents d') = [2; 4; 5]
    ∧ map assignedCount (agents d') = [2; 4; 5].
Proof.
  destruct (C9_redistribute_round_robin 200%Z [ failedRecord; failedRecord ] []
              loadedDistribution)
    as (_ & _ & _ & _ & _ & d' & Hred & _ & _ & _ & _ & Hexample); [done|done|].
  exists d'. split; [exact Hred|].
  rewrite (Hexample _ _ _ _ _ eq_refl eq_refl eq_refl eq_refl eq_refl).
  repeat split.
Defined.

(** * Further properties of the engine *)

(** ** Scores *)

Lemma num_mono (p q : Z) : (p <= q)%Z → (num p <= num q)%Q.
Proof. unfold num. by rewrite <- Zle_Qle. Qed.

Lemma workloadFactor_bounds (a : Agent) :
  (1 # 10 <= calculateWorkloadFactor a <= 1)%Q.
Proof.
  unfold calculateWorkloadFactor.
  set (pa := (assignedTasks a - completedTasks a)%Z).
  destruct (Z.leb_spec pa 0); [lra|].
  destruct (Z.leb_spec 50 pa); [lra|].
  split; [apply Q.le_max_l|]. apply Q.max_lub; [lra|].
  assert (num pa / 50 == num pa * (1 # 50))%Q as -> by field.
  pose proof (num_mono 0%Z pa ltac:(lia)) as Hp.
  change (num 0) with 0%Q in Hp. lra.
Qed.

(** X1. The workload factor always lies between one tenth and one, and
    an agent with more pending tasks never has a higher factor. *)
Theorem workloadFactor_range_antitone (a b : Agent) :
  (1 # 10 <= calculateWorkloadFactor a <= 1)%Q
  ∧ ((assignedTasks a - completedTasks a <= assignedTasks b - completedTasks b)%Z →
     (calculateWorkloadFactor b <= calculateWorkloadFactor a)%Q).
Proof.
  split; [apply workloadFactor_bounds|].
  pose proof (workloadFactor_bounds a) as [Ha0 Ha1].
  pose proof (workloadFactor_bounds b) as [Hb0 Hb1].
  unfold calculateWorkloadFactor in *.
  set (pa := (assignedTasks a - completedTasks a)%Z) in *.
  set (pb := (assignedTasks b - completedTasks b)%Z) in *.
  intros Hle.
  destruct (Z.leb_spec pa 0), (Z.leb_spec pb 0); try lia; try lra.
  destruct (Z.leb_spec 50 pa), (Z.leb_spec 50 pb); try lia; try lra.
  apply Q.max_le_compat_l.
  assert (∀ p : Z, (num p / 50 == num p * (1 # 50))%Q) as Hdiv by (intros; field).
  rewrite !Hdiv. pose proof (num_mono pa pb Hle). lra.
Qed.

Lemma workloadFactor_range_antitone_witness :
  (calculateWorkloadFactor busyAgent
   <= calculateWorkloadFactor (freshAgent 2%nat "bob"))%Q.
Proof.
  apply (workloadFactor_range_antitone (freshAgent 2 "bob") busyAgent). simpl. lia.
Defined.



(** ** Who gets a group, and what the groups hold *)

Lemma map_imap_proj {A B C} (f : nat → A → B) (P : B → C) (h : A → C) (l : list A) :
  (∀ i a, P (f i a) = h a) → map P (imap f l) = map h l.
Proof.
  revert f. induction l as [|x l IH]; intros f Hf; simpl; [done|].
  rewrite Hf. f_equal. apply IH. intros i a. apply Hf.
Qed.

Lemma weightedLoop_ids now input agents W ws idx groups final :
  weightedLoop now input agents W ws idx = Some (groups, final) →
  map agentId groups = map aw_agentId ws.
Proof.
  revert idx groups. induction ws as [|w ws IH]; intros idx groups; simpl.
  - by intros [= <- <-].
  - destruct (List.find _ agents) as [agent|] eqn:Hfind; [|done]. simpl.
    destruct (weightedLoop now input agents W ws _) as [[groups' final']|] eqn:Hrest;
      [|done].
    simpl. intros [= <- <-]. simpl. rewrite (IH _ _ Hrest). f_equal.
    apply find_some in Hfind as [_ Hid]. by apply Nat.eqb_eq in Hid.
Qed.

Lemma runMethod_agentIds (method : Method) (now : Time) (input : list InputRecord)
    (agents : list Agent) (groups : list Group) :
  agents ≠ [] →
  runMethod method now input agents = Some groups →
  map agentId groups ≡ₚ map _id agents.
Proof.
  intros Hne. destruct method; simpl.
  - intros [= <-]. rewrite equalDistribution_closed.
    by rewrite (map_imap_proj _ agentId _id).
  - destruct (weightedDistribution_closed now input agents Hne)
      as (top & others & final & Hloop & ->).
    intros [= <-]. apply weightedLoop_ids in Hloop.
    assert (map agentId (top :: others) ≡ₚ map _id agents) as Hperm.
    { rewrite Hloop, calculateAgentWeights_perm, map_map. done. }
    by destruct (final <? length input).
  - rewrite priorityDistribution_closed by done. intros [= <-].
    rewrite (map_imap_proj _ agentId _id) by done.
    apply Permutation_map, sortAgents_perm.
Qed.

(** X3. For every strategy the plan has exactly one group for each
    active agent and none for an inactive one: the groups' agent ids
    are the ids of the active agents, each as often as it occurs among
    them, and the summary counts that many agents. *)
Theorem distribute_one_group_per_active_agent (clock : Clock)
    (input : list InputRecord) (agents : list Agent) (strategy : string)
    (method : Method) :
  input ≠ [] → List.filter isActive agents ≠ [] →
  selected strategy = Some method →
  ∃ groups summary elapsed,
    distribute clock (Some input) (Some agents) strategy
      = Resolved (Plan groups summary strategy elapsed)
    ∧ map agentId groups ≡ₚ map _id (List.filter isActive agents)
    ∧ totalAgentsAssigned summary = length (List.filter isActive agents)
    ∧ (∀ g, g ∈ groups →
         ∃ a, a ∈ agents ∧ isActive a = true ∧ _id a = agentId g).
Proof.
  intros Hin Hact Hsel.
  destruct (distribute_plan clock input agents strategy method Hin Hact Hsel)
    as (groups & Hrun & Hplan).
  pose proof (runMethod_agentIds _ _ _ _ _ Hact Hrun) as Hids.
  eexists _, _, _. split; [exact Hplan|]. split; [done|]. split.
  - simpl. by rewrite <- (length_map agentId), Hids, length_map.
  - intros g Hg.
    assert (agentId g ∈ map _id (List.filter isActive agents)) as Hid.
    { rewrite <- Hids. apply list_elem_of_In, in_map, list_elem_of_In, Hg. }
    apply list_elem_of_In, in_map_iff in Hid as (a & Ha & Hin').
    apply filter_In in Hin' as [Hin' Hactive].
    exists a. by rewrite list_elem_of_In.
Qed.

Lemma distribute_one_group_per_active_agent_witness :
  ∃ groups summary elapsed,
    distribute clock0 (Some tenRows) (Some threeAgents) "priority"
      = Resolved (Plan groups summary "priority" elapsed)
    ∧ totalAgentsAssigned summary = 3.
Proof.
  destruct (distribute_one_group_per_active_agent clock0 tenRows threeAgents
              "priority" priority)
    as (groups & summary & elapsed & Hplan & _ & Htotal & _); [done|done|done|].
  exists groups, summary, elapsed. split; [exact Hplan|exact Htotal].
Defined.

(** X4. For every strategy no record is lost or duplicated: the
    records of all groups together are the input rows, each exactly
    once, every one with status [pending], the time of the call as
    [assignedAt], no [completedAt] and no [redistributed] mark; the
    summary reports the number of input rows as distributed. *)
Theorem distribute_records_exactly_once (clock : Clock)
    (input : list InputRecord) (agents : list Agent) (strategy : string)
    (method : Method) :
  input ≠ [] → List.filter isActive agents ≠ [] →
  selected strategy = Some method →
  ∃ groups summary elapsed,
    distribute clock (Some input) (Some agents) strategy
      = Resolved (Plan groups summary strategy elapsed)
    ∧ concat (map records groups) ≡ₚ map (assign (stamp clock)) input
    ∧ sum_list (map (λ g, length (records g)) groups) = length input
    ∧ totalRecordsDistributed summary = length input
    ∧ Forall (λ r, status r = pending ∧ assignedAt r = stamp clock
                   ∧ completedAt r = None ∧ redistributed r = false)
             (concat (map records groups)).
Proof.
  intros Hin Hact Hsel.
  destruct (runMethod_plan method (stamp clock) input _ Hact)
    as (groups & Hrun & _ & Hperm & _).
  eexists groups, _, _.
  split; [by rewrite (distribute_selected _ _ _ _ method), Hrun|].
  split; [done|]. split; [|split; [done|]].
  - by rewrite <- length_concat_records, Hperm, length_map.
  - rewrite Hperm. apply Forall_forall. intros r Hr.
    apply list_elem_of_In, in_map_iff in Hr as (row & <- & _). done.
Qed.

Lemma distribute_records_exactly_once_witness :
  ∃ groups summary elapsed,
    distribute clock0 (Some tenRows) (Some threeAgents) "weighted"
      = Resolved (Plan groups summary "weighted" elapsed)
    ∧ sum_list (map (λ g, length (records g)) groups) = 10.
Proof.
  destruct (distribute_records_exactly_once clock0 tenRows threeAgents
              "weighted" weighted)
    as (groups & summary & elapsed & Hplan & _ & Hsum & _); [done|done|done|].
  exists groups, summary, elapsed. split; [exact Hplan|exact Hsum].
Defined.

(** ** When the weighted plan is a partition *)





(** ** The guards and the fallback of distribute *)

Lemma distribute_partitions_unweighted_witness :
  ∃ groups summary elapsed,
    distribute clock0 (Some tenRows) (Some threeAgents) "priority"
      = Resolved (Plan groups summary "priority" elapsed)
    ∧ partitions (stamp clock0) tenRows groups.
Proof.
  apply (distribute_partitions_unweighted clock0 tenRows threeAgents
           "priority" priority); done.
Defined.

Lemma distribute_rejects_iff_witness :
  (∃ e, distribute clock0 (Some tenRows) (Some [ busyAgent ]) "weighted" = Rejected e)
  ↔ (Some tenRows = None ∨ Some tenRows = Some [])
    ∨ (Some [ busyAgent ] = None ∨ Some [ busyAgent ] = Some [])
    ∨ (∃ l, Some [ busyAgent ] = Some l ∧ List.filter isActive l = []).
Proof.
  apply (distribute_rejects_iff clock0 (Some tenRows) (Some [ busyAgent ])
           "weighted" weighted). reflexivity.
Defined.

(** X8. A strategy name that is none of the three strategies and no
    member of [Object.prototype] behaves as ["equal"] on every input:
    the same rejection, or the same groups and summary, labelled with
    the name given. *)
Theorem distribute_unknown_name_runs_equal (clock : Clock)
    (records : option (list InputRecord)) (agents : option (list Agent))
    (strategy : string) :
  strategy ∉ [ "equal"; "weighted"; "priority" ] ++ Object_prototype_keys →
  (∀ e, distribute clock records agents "equal" = Rejected e →
        distribute clock records agents strategy = Rejected e)
  ∧ (∀ groups summary elapsed,
       distribute clock records agents "equal"
         = Resolved (Plan groups summary "equal" elapsed) →
       distribute clock records agents strategy
         = Resolved (Plan groups summary strategy elapsed)).
Proof.
  intros Hname.
  assert (strategies strategy = Undefined) as Hs.
  { unfold strategies.
    repeat match goal with
           | |- context [String.eqb strategy ?s] =>
               destruct (String.eqb_spec strategy s) as [->|_];
               [exfalso; apply Hname; rewrite list_elem_of_In; simpl; tauto|]
           end.
    destruct (existsb _ _) eqn:Hex; [|done].
    apply existsb_exists in Hex as (key & Hkey & Heq).
    apply String.eqb_eq in Heq as <-.
    exfalso. apply Hname. rewrite list_elem_of_In. apply in_or_app. by right. }
  unfold distribute. rewrite Hs. change (strategies "equal") with (Own equal).
  destruct records as [[|r0 input]|]; [done| |done].
  destruct agents as [[|a0 agents]|]; [done| |done].
  destruct (List.filter isActive (a0 :: agents)) as [|b0 active]; [done|].
  simpl runMethod. unfold finish. split.
  - intros e. discriminate.
  - intros groups summary elapsed [= <- <- <-]. done.
Qed.

Lemma distribute_unknown_name_runs_equal_witness :
  ∃ groups summary elapsed,
    distribute clock0 (Some tenRows) (Some threeAgents) "round-robin"
      = Resolved (Plan groups summary "round-robin" elapsed)
    ∧ length groups = 3.
Proof.
  destruct (distribute_plan clock0 tenRows threeAgents "equal" equal)
    as (groups & Hrun & Hplan); [done|done|done|].
  eexists groups, _, _. split.
  - apply (distribute_unknown_name_runs_equal clock0 (Some tenRows)
             (Some threeAgents) "round-robin"); [|exact Hplan].
    rewrite list_elem_of_In. vm_compute. intuition discriminate.
  - injection Hrun as <-. reflexivity.
Defined.

(** ** The fairness score *)

Lemma Rsum_nonneg (l : list R) : Forall (λ x, 0 <= x)%R l → (0 <= Rsum l)%R.
Proof. unfold Rsum. induction 1; simpl; lra. Qed.

Lemma Rsum_zero_terms (l : list R) :
  Forall (λ x, 0 <= x)%R l → Rsum l = 0%R → Forall (λ x, x = 0%R) l.
Proof.
  induction 1 as [|x l Hx Hall IH]; [constructor|].
  intros Hsum. pose proof (Rsum_nonneg l Hall) as Hl.
  unfold Rsum in *. simpl in Hsum. constructor; [lra|]. apply IH. lra.
Qed.

Lemma squares_nonneg (m : R) (counts : list nat) :
  Forall (λ x, 0 <= x)%R (map (λ c, (INR c - m) ^ 2)%R counts).
Proof.
  apply Forall_forall. intros x Hx.
  apply list_elem_of_In, in_map_iff in Hx as (c & <- & _). apply pow2_ge_0.
Qed.

Lemma Rsum_squares_zero (m : R) (counts : list nat) :
  Forall (λ c, INR c = m) counts →
  Rsum (map (λ c, (INR c - m) ^ 2)%R counts) = 0%R.
Proof.
  unfold Rsum. induction 1 as [|c l Hc _ IH]; cbn [map foldr]; [done|].
  rewrite IH, Hc. ring.
Qed.

Lemma sum_list_all_equal (c : nat) (counts : list nat) :
  Forall (λ x, x = c) counts → sum_list counts = length counts * c.
Proof. induction 1 as [|x l -> _ IH]; simpl; [done|]. by rewrite IH. Qed.

Lemma mean_positive (counts : list nat) :
  counts ≠ [] → 0 < sum_list counts → (0 < mean counts)%R.
Proof.
  intros Hne Hsum. unfold mean. apply Rdiv_lt_0_compat.
  - by apply (lt_0_INR (sum_list counts)).
  - apply lt_0_INR. destruct counts; [done|simpl; lia].
Qed.

Lemma fairness_spec_1_iff (counts : list nat) :
  counts ≠ [] → 0 < sum_list counts →
  fairness_spec counts = 1%R ↔ Forall (λ c, INR c = mean counts) counts.
Proof.
  intros Hne Hsum. pose proof (mean_positive counts Hne Hsum) as Hmean.
  assert (0 < INR (length counts))%R as Hlen
    by (apply lt_0_INR; destruct counts; [done|simpl; lia]).
  pose proof (squares_nonneg (mean counts) counts) as Hsq.
  unfold fairness_spec, stddev. split.
  - intros Hone.
    assert (sqrt (Rsum (map (λ c, (INR c - mean counts) ^ 2) counts)
                  / INR (length counts)) = 0)%R as Hsd.
    { set (sd := sqrt _) in *.
      assert (0 <= sd)%R as Hsd0 by apply sqrt_pos.
      assert (0 <= sd / mean counts)%R as Hq.
      { apply Rmult_le_pos; [done|]. left. by apply Rinv_0_lt_compat. }
      assert (sd / mean counts = 0)%R as Hz.
      { unfold Rmax in Hone. destruct (Rle_dec 0 (1 - sd / mean counts)); lra. }
      unfold Rdiv in Hz. apply Rmult_integral in Hz as [Hz|Hz]; [done|].
      pose proof (Rinv_0_lt_compat _ Hmean). lra. }
    apply sqrt_eq_0 in Hsd.
    + unfold Rdiv in Hsd. apply Rmult_integral in Hsd as [Hsd|Hsd].
      * apply Rsum_zero_terms in Hsd; [|done].
        rewrite Forall_forall in Hsd. apply Forall_forall. intros c Hc.
        assert ((INR c - mean counts) ^ 2 = 0)%R as Hzero.
        { apply Hsd. apply list_elem_of_In, in_map_iff. exists c.
          split; [done|]. by apply list_elem_of_In. }
        simpl in Hzero. nra.
      * pose proof (Rinv_0_lt_compat _ Hlen). lra.
    + apply Rmult_le_pos; [by apply Rsum_nonneg|]. left. by apply Rinv_0_lt_compat.
  - intros Hall.
    assert (Rsum (map (λ c, (INR c - mean counts) ^ 2)%R counts) = 0%R) as ->.
    { by apply Rsum_squares_zero. }
    unfold Rdiv. rewrite Rmult_0_l, sqrt_0, Rmult_0_l, Rminus_0_r.
    apply Rmax_right. lra.
Qed.

Lemma fairness_even (c0 : nat) (counts : list nat) :
  counts ≠ [] → 0 < sum_list counts → Forall (λ x, x = c0) counts →
  calculateFairnessScore counts = Some 1%R.
Proof.
  intros Hne Hsum Hall. rewrite calculateFairnessScore_spec by done.
  f_equal. apply fairness_spec_1_iff; [done..|].
  assert (0 < INR (length counts))%R as Hlen
    by (apply lt_0_INR; destruct counts; [done|simpl; lia]).
  assert (mean counts = INR c0) as Hmean.
  { unfold mean. rewrite (sum_list_all_equal c0) by done.
    rewrite mult_INR. field. lra. }
  rewrite Hmean. eapply Forall_impl; [exact Hall|]. by intros x ->.
Qed.

(** X9. For counts that are not all zero the fairness score is 1
    exactly when every agent has the same count. *)
Theorem fairness_1_iff_even (counts : list nat) :
  counts ≠ [] → 0 < sum_list counts →
  calculateFairnessScore counts = Some 1%R
  ↔ ∀ c c', c ∈ counts → c' ∈ counts → c = c'.
Proof.
  intros Hne Hsum. rewrite calculateFairnessScore_spec by done.
  assert (0 < INR (length counts))%R as Hlen
    by (apply lt_0_INR; destruct counts; [done|simpl; lia]).
  split.
  - intros [= Hone]. apply fairness_spec_1_iff in Hone; [|done..].
    rewrite Forall_forall in Hone. intros c c' Hc Hc'.
    apply INR_eq. by rewrite (Hone c Hc), (Hone c' Hc').
  - intros Heven. rewrite <- calculateFairnessScore_spec by done.
    destruct counts as [|c0 rest]; [done|].
    apply (fairness_even c0); [done|done|].
    apply Forall_forall. intros x Hx. apply Heven; [done|apply list_elem_of_here].
Qed.

Lemma fairness_1_iff_even_witness :
  calculateFairnessScore [3; 3; 3] = Some 1%R.
Proof.
  apply fairness_1_iff_even; [done|simpl; lia|].
  intros c c' Hc Hc'. rewrite !elem_of_cons in Hc, Hc'.
  rewrite elem_of_nil in Hc, Hc'. lia.
Defined.

(** X10. The fairness score is [NaN] exactly for two or more counts
    that are all zero; every other score lies between 0 and 1. *)
Theorem fairness_NaN_iff (counts : list nat) :
  (calculateFairnessScore counts = None
   ↔ 2 ≤ length counts ∧ Forall (λ c, c = 0) counts)
  ∧ (∀ f, calculateFairnessScore counts = Some f → (0 <= f <= 1)%R).
Proof.
  assert (sum_list counts = 0 ↔ Forall (λ c, c = 0) counts) as Hzero.
  { induction counts as [|c l IH]; simpl.
    - split; [constructor|done].
    - rewrite Forall_cons, <- IH. lia. }
  destruct (decide (length counts ≤ 1)) as [Hshort|Hlong].
  - assert (calculateFairnessScore counts = Some 1%R) as ->.
    { unfold calculateFairnessScore. by destruct (Nat.leb_spec (length counts) 1); [|lia]. }
    split; [split; [done|lia]|]. intros f [= <-]. lra.
  - destruct (decide (sum_list counts = 0)) as [Hsum|Hsum].
    + assert (calculateFairnessScore counts = None) as ->.
      { unfold calculateFairnessScore. rewrite sumCounts_sum_list, Hsum.
        by destruct (Nat.leb_spec (length counts) 1); [lia|]. }
      split; [|done]. split; [|done]. intros _. split; [lia|by apply Hzero].
    + rewrite calculateFairnessScore_spec by (try lia; by destruct counts).
      split.
      * split; [done|]. intros [_ Hall]. apply Hzero in Hall. lia.
      * intros f [= <-]. apply fairness_spec_bounds; [by destruct counts|lia].
Qed.

(** X11. Under the equal strategy, when the number of active agents
    divides the number of records, every agent gets the same count, the
    summary's minimum and maximum coincide, its variance is 0 and its
    fairness score is 1. *)
Theorem equal_even_split (clock : Clock) (input : list InputRecord)
    (agents : list Agent) :
  input ≠ [] → List.filter isActive agents ≠ [] →
  length input mod length (List.filter isActive agents) = 0 →
  ∃ groups summary elapsed,
    distribute clock (Some input) (Some agents) "equal"
      = Resolved (Plan groups summary "equal" elapsed)
    ∧ Forall (λ g, assignedCount g
                   = length input / length (List.filter isActive agents)) groups
    ∧ minRecordsAssigned summary = maxRecordsAssigned summary
    ∧ distributionVariance summary = 0
    ∧ fairnessScore summary = Some 1%R.
Proof.
  intros Hin Hact Hmod.
  rewrite (distribute_selected clock input agents "equal" equal) by done.
  simpl runMethod. rewrite finish_plan, equalDistribution_closed, Hmod.
  remember (List.filter isActive agents) as activeAgents eqn:Ha. clear Ha.
  set (n := length input / length activeAgents).
  set (groups := imap _ activeAgents).
  assert (length activeAgents ≠ 0) as Hk by (by destruct activeAgents).
  assert (0 < n) as Hn.
  { pose proof (Nat.div_mod_eq (length input) (length activeAgents)) as Hdm.
    fold n in Hdm. rewrite Hmod in Hdm. destruct input; [done|]. simpl in Hdm.
    destruct n; lia. }
  assert (Forall (λ g, assignedCount g = n) groups) as Hall.
  { apply Forall_forall. intros g Hg.
    apply list_elem_of_lookup in Hg as [i Hi]. unfold groups in Hi.
    rewrite list_lookup_imap in Hi. destruct (activeAgents !! i); [|done].
    injection Hi as <-. simpl. unfold equalShare. simpl. lia. }
  assert (Forall (λ c, c = n) (map assignedCount groups)) as Hcounts.
  { apply Forall_forall. intros c Hc.
    apply list_elem_of_In, in_map_iff in Hc as (g & <- & Hg).
    rewrite Forall_forall in Hall. apply Hall. by apply list_elem_of_In. }
  assert (map assignedCount groups ≠ []) as Hne.
  { unfold groups. by destruct activeAgents. }
  destruct (Math_min_spec _ Hne) as [Hmin _].
  destruct (Math_max_spec _ Hne) as [Hmax _].
  rewrite Forall_forall in Hcounts.
  pose proof (Hcounts _ Hmin) as Hmin'. pose proof (Hcounts _ Hmax) as Hmax'.
  eexists _, _, _. split; [reflexivity|]. split; [done|].
  unfold generateSummary. simpl. split; [lia|]. split; [lia|].
  apply (fairness_even n); [done| |by apply Forall_forall].
  rewrite (sum_list_all_equal n) by (by apply Forall_forall).
  destruct (map assignedCount groups); [done|]. simpl. lia.
Qed.

Lemma equal_even_split_witness :
  ∃ groups summary elapsed,
    distribute clock0 (Some (take 9 tenRows)) (Some threeAgents) "equal"
      = Resolved (Plan groups summary "equal" elapsed)
    ∧ distributionVariance summary = 0
    ∧ fairnessScore summary = Some 1%R.
Proof.
  destruct (equal_even_split clock0 (take 9 tenRows) threeAgents)
    as (groups & summary & elapsed & Hplan & _ & _ & Hvar & Hfair);
    [done|done|reflexivity|].
  exists groups, summary, elapsed. split; [exact Hplan|]. split; [exact Hvar|exact Hfair].
Defined.

(** ** Analytics *)

Lemma sumOver_sum_list (count : Group → nat) (groups : list Group) :
  sumOver count groups = sum_list (map count groups).
Proof.
  unfold sumOver. rewrite <- (Nat.add_0_l (sum_list _)). generalize 0.
  induction groups as [|g groups IH]; intros acc; simpl; [lia|].
  rewrite IH. lia.
Qed.

Lemma countStatus_split (rs : list Rec) :
  countStatus pending rs + countStatus in_progress rs
  + countStatus completed rs + countStatus failed rs = length rs.
Proof.
  unfold countStatus. induction rs as [|r rs IH]; simpl; [done|].
  destruct (status r); simpl; lia.
Qed.

Lemma countStatus_all (s : Status) (rs : list Rec) :
  Forall (λ r, status r = s) rs → countStatus s rs = length rs.
Proof.
  unfold countStatus. induction 1 as [|r rs Hr _ IH]; simpl; [done|].
  rewrite bool_decide_eq_true_2 by done. simpl. by rewrite IH.
Qed.

Lemma countStatus_none (s s' : Status) (rs : list Rec) :
  s ≠ s' → Forall (λ r, status r = s) rs → countStatus s' rs = 0.
Proof.
  unfold countStatus. intros Hne. induction 1 as [|r rs Hr _ IH]; simpl; [done|].
  rewrite bool_decide_eq_false_2 by congruence. done.
Qed.

Lemma rate_range (part whole : nat) :
  part ≤ whole → 0 < whole →
  (0 <= numN part / numN whole * 100 <= 100)%Q.
Proof.
  intros Hle Hpos.
  assert (0 < numN whole)%Q as Hw.
  { unfold numN. change 0%Q with (inject_Z 0). rewrite <- Zlt_Qlt. lia. }
  assert (0 <= numN part / numN whole <= 1)%Q as [H0 H1].
  { split.
    - apply Qle_shift_div_l; [done|]. rewrite Qmult_0_l. unfold numN.
      change 0%Q with (inject_Z 0). rewrite <- Zle_Qle. lia.
    - apply Qle_shift_div_r; [done|]. rewrite Qmult_1_l. by apply numN_le. }
  set (q := (numN part / numN whole)%Q) in *. split; lra.
Qed.

(** X12. In the analytics the overall counts are the sums of the
    per-agent counts, and completed, in-progress and pending records
    together never exceed the records held. When no group holds more
    records than its [assignedCount] and the reported total is at least
    the number of records held, every completion rate lies between 0
    and 100. *)
Theorem analytics_counts_and_rates (groups : list Group) (engineSummary : Summary) :
  let a := getDistributionAnalytics groups engineSummary in
  let held := sum_list (map (λ g, length (records g)) groups) in
  overallCompleted a = sum_list (map ap_completed (agentPerformance a))
  ∧ overallInProgress a = sum_list (map ap_inProgress (agentPerformance a))
  ∧ overallPending a = sum_list (map ap_pending (agentPerformance a))
  ∧ overallCompleted a + overallInProgress a + overallPending a ≤ held
  ∧ (Forall (λ g, length (records g) ≤ assignedCount g) groups →
     Forall (λ e, (0 <= ap_completionRate e <= 100)%Q) (agentPerformance a))
  ∧ (held ≤ totalRecordsDistributed engineSummary →
     (0 <= overallCompletionRate a <= 100)%Q).
Proof.
  cbv zeta. unfold getDistributionAnalytics. simpl.
  rewrite !sumOver_sum_list, !map_map. simpl.
  assert (sum_list (map (λ g, countStatus completed (records g)) groups)
          + sum_list (map (λ g, countStatus in_progress (records g)) groups)
          + sum_list (map (λ g, countStatus pending (records g)) groups)
          ≤ sum_list (map (λ g, length (records g)) groups)) as Hheld.
  { induction groups as [|g groups IH]; simpl; [done|].
    pose proof (countStatus_split (records g)). lia. }
  split; [done|]. split; [done|]. split; [done|]. split; [done|]. split.
  - intros Hshort. apply Forall_forall. intros e He.
    apply list_elem_of_In, in_map_iff in He as (g & <- & Hg).
    rewrite Forall_forall in Hshort. apply list_elem_of_In in Hg.
    specialize (Hshort g Hg). simpl.
    destruct (Nat.ltb_spec 0 (assignedCount g)); [|lra].
    apply rate_range; [|done]. pose proof (countStatus_split (records g)). lia.
  - intros Htotal.
    destruct (Nat.ltb_spec 0 (totalRecordsDistributed engineSummary)); [|lra].
    apply rate_range; [lia|done].
Qed.

(** X13. The analytics of a plan as [distribute] returns it, for
    every strategy: all input rows are pending, none is completed or in
    progress, and every completion rate is 0. *)
Theorem analytics_of_fresh_plan (clock : Clock) (input : list InputRecord)
    (agents : list Agent) (strategy : string) (method : Method) :
  input ≠ [] → List.filter isActive agents ≠ [] →
  selected strategy = Some method →
  ∃ groups summary elapsed,
    distribute clock (Some input) (Some agents) strategy
      = Resolved (Plan groups summary strategy elapsed)
    ∧ let a := getDistributionAnalytics groups summary in
      totalTasks a = length input
      ∧ overallPending a = length input
      ∧ overallCompleted a = 0
      ∧ overallInProgress a = 0
      ∧ (overallCompletionRate a == 0)%Q
      ∧ Forall (λ e, ap_completed e = 0 ∧ (ap_completionRate e == 0)%Q)
               (agentPerformance a).
Proof.
  intros Hin Hact Hsel.
  destruct (runMethod_plan method (stamp clock) input _ Hact)
    as (groups & Hrun & _ & Hperm & _).
  eexists groups, _, _.
  split; [by rewrite (distribute_selected _ _ _ _ method), Hrun|].
  assert (Forall (λ g, Forall (λ r, status r = pending) (records g)) groups) as Hall.
  { apply Forall_forall. intros g Hg. apply Forall_forall. intros r Hr.
    assert (r ∈ concat (map records groups)) as Hc.
    { apply list_elem_of_In, in_concat. exists (records g).
      split; [apply in_map; by apply list_elem_of_In|by apply list_elem_of_In]. }
    rewrite Hperm in Hc.
    apply list_elem_of_In, in_map_iff in Hc as (row & <- & _). done. }
  assert (∀ s, s ≠ pending →
            sum_list (map (λ g, countStatus s (records g)) groups) = 0) as Hnone.
  { intros s Hs. clear -Hall Hs. induction Hall as [|g groups Hg _ IH]; simpl; [done|].
    rewrite (countStatus_none pending s) by done. done. }
  assert (sum_list (map (λ g, countStatus pending (records g)) groups) = length input)
    as Hpending.
  { rewrite <- (length_map (assign (stamp clock)) input), <- Hperm,
      length_concat_records.
    apply sum_list_map_ext. eapply Forall_impl; [exact Hall|].
    simpl. intros g Hg. by apply countStatus_all. }
  cbv zeta. unfold getDistributionAnalytics. simpl.
  rewrite !sumOver_sum_list, Hpending, !Hnone by done.
  split; [done|]. split; [done|]. split; [done|]. split; [done|]. split.
  - destruct (0 <? length input); [|done]. unfold numN. simpl. unfold Qdiv.
    by rewrite !Qmult_0_l.
  - apply Forall_forall. intros e He.
    apply list_elem_of_In, in_map_iff in He as (g & <- & Hg).
    rewrite Forall_forall in Hall. apply list_elem_of_In in Hg.
    simpl. rewrite (countStatus_none pending completed) by (done || by apply Hall).
    split; [done|]. destruct (0 <? assignedCount g); [|done].
    unfold numN. simpl. unfold Qdiv. by rewrite !Qmult_0_l.
Qed.

Lemma analytics_of_fresh_plan_witness :
  ∃ groups summary elapsed,
    distribute clock0 (Some tenRows) (Some threeAgents) "weighted"
      = Resolved (Plan groups summary "weighted" elapsed)
    ∧ overallPending (getDistributionAnalytics groups summary) = 10.
Proof.
  destruct (analytics_of_fresh_plan clock0 tenRows threeAgents "weighted" weighted)
    as (groups & summary & elapsed & Hplan & _ & Hpending & _); [done|done|done|].
  exists groups, summary, elapsed. split; [exact Hplan|exact Hpending].
Defined.

(** ** Redistribution: conservation *)

Lemma sum_list_map_perm {A} (f : A → nat) (l l' : list A) :
  l ≡ₚ l' → sum_list (map f l) = sum_list (map f l').
Proof. induction 1; simpl; lia. Qed.

Lemma sum_list_map_insert {A} (f : A → nat) (l : list A) (i : nat) (x y : A) :
  l !! i = Some x → f y = S (f x) →
  sum_list (map f (<[i := y]> l)) = S (sum_list (map f l)).
Proof.
  revert i. induction l as [|z l IH]; intros [|i]; simpl; try done.
  - intros [= ->] ->. lia.
  - intros Hi Hy. rewrite (IH i Hi Hy). lia.
Qed.

Section RoundRobinSum.
Context {G T : Type} (push : T → G → G) (size : G → nat).
Hypothesis size_push : ∀ task g, size (push task g) = S (size g).

Lemma roundRobin_sum (tasks : list T) (groups groups' : list G) (i : nat) :
  roundRobin push tasks groups i = Some groups' →
  sum_list (map size groups') = sum_list (map size groups) + length tasks.
Proof.
  revert groups i. induction tasks as [|task rest IH]; intros groups i; simpl.
  - intros [= <-]. lia.
  - destruct (groups !! i) as [g|] eqn:Hg; [|done]. simpl. intros Hrest.
    rewrite (IH _ _ Hrest), (sum_list_map_insert size groups i g) by done. lia.
Qed.
End RoundRobinSum.

Lemma currentLoad_pushRecord_reassign (now : Time) (task : Rec) (g : Group) :
  currentLoad (pushRecord (reassign now task) g) = S (currentLoad g).
Proof.
  unfold currentLoad, pushRecord. simpl.
  rewrite List.filter_app, length_app. simpl. lia.
Qed.

(** X14. Redistribution never removes or moves a record: for a
    non-empty task list and a distribution with groups, the records
    afterwards are the records before together with one fresh pending
    copy of every task; the sum of [assignedCount] and the sum of the
    live loads both grow by the number of tasks; the set of agents, the
    file name, [totalRecords] and the stored summary stay as they were;
    and the tasks are shared evenly: the group at position [j] of the
    serving order receives [n / k] tasks, plus one when [j < n mod k]. *)
Theorem redistributeTasks_conserves (now : Time) (tasks : list Rec)
    (availableAgents : list Agent) (d : Distribution) :
  tasks ≠ [] → agents d ≠ [] →
  ∃ d',
    redistributeTasks now (Some tasks) availableAgents d = Some d'
    ∧ concat (map records (agents d'))
      ≡ₚ concat (map records (agents d)) ++ map (reassign now) tasks
    ∧ sum_list (map assignedCount (agents d'))
      = sum_list (map assignedCount (agents d)) + length tasks
    ∧ sum_list (map currentLoad (agents d'))
      = sum_list (map currentLoad (agents d)) + length tasks
    ∧ map agentId (agents d') ≡ₚ map agentId (agents d)
    ∧ fileName d' = fileName d
    ∧ totalRecords d' = totalRecords d
    ∧ summary d' = summary d
    ∧ (let k := length (agents d) in
       let n := length tasks in
       ∀ j g g',
         sortByLoad (agents d) !! j = Some g → agents d' !! j = Some g' →
         length (records g')
         = length (records g) + n / k + (if j <? n mod k then 1 else 0)).
Proof.
  intros Htasks Hgroups.
  pose proof (redistributeTasks_closed now tasks availableAgents d Htasks Hgroups)
    as Hclosed.
  assert (∃ groups,
    roundRobin (pushTask now) tasks
      (js_sort byLoad (map (λ agent, (agent, currentLoad agent)) (agents d))) 0
    = Some groups
    ∧ redistributeTasks now (Some tasks) availableAgents d
      = Some (withAgents (map fst groups) d)) as (groups & Hrr & Hred).
  { unfold redistributeTasks in *. destruct tasks as [|t0 tasks']; [done|].
    destruct (roundRobin _ _ _ _) as [groups|] eqn:Hrr; [|done].
    by exists groups. }
  set (workloads := js_sort byLoad _) in Hrr.
  assert (workloads ≡ₚ map (λ agent, (agent, currentLoad agent)) (agents d))
    as Hperm by apply js_sort_perm.
  exists (withAgents (map fst groups) d).
  split; [exact Hred|]. cbn [agents withAgents fileName totalRecords summary].
  split; [|split; [|split; [|split]]].
  - rewrite map_map.
    rewrite (roundRobin_perm (pushTask now) (λ p, records (fst p)) (reassign now)
               (λ _ _, eq_refl) _ _ _ _ Hrr).
    apply Permutation_app_tail.
    rewrite <- (map_map fst records), Hperm, !map_map. simpl. done.
  - rewrite map_map.
    rewrite (roundRobin_sum (pushTask now) (λ p, assignedCount (fst p))
               (λ _ _, eq_refl) _ _ _ _ Hrr).
    f_equal. rewrite (sum_list_map_perm _ _ _ Hperm), map_map. done.
  - rewrite map_map.
    rewrite (roundRobin_sum (pushTask now) (λ p, currentLoad (fst p))
               (λ task p, currentLoad_pushRecord_reassign now task (fst p))
               _ _ _ _ Hrr).
    f_equal. rewrite (sum_list_map_perm _ _ _ Hperm), map_map. done.
  - rewrite Hred in Hclosed. injection Hclosed as Hclosed.
    rewrite Hclosed.
    etransitivity;
      [|apply (Permutation_map agentId), (sortByLoad_perm (agents d))].
    apply reflexive_eq, list_eq. intros j.
    change (map ?f ?l) with (f <$> l).
    rewrite !list_lookup_fmap, list_lookup_imap.
    by destruct (sortByLoad (agents d) !! j).
  - split; [done|]. split; [done|]. split; [done|].
    cbv zeta. intros j g g' Hg Hg'.
    rewrite Hred in Hclosed. injection Hclosed as Hclosed.
    rewrite Hclosed, list_lookup_imap, Hg in Hg'. simpl in Hg'.
    injection Hg' as <-. simpl. rewrite length_app, length_map.
    assert (length (agents d) ≠ 0) as Hk by (by destruct (agents d)).
    assert (j < length (agents d)) as Hj.
    { rewrite <- (Permutation_length (sortByLoad_perm (agents d))).
      by eapply lookup_lt_Some. }
    rewrite deal_length by done. unfold equalShare. lia.
Qed.

Lemma redistributeTasks_conserves_witness :
  ∃ d',
    redistributeTasks 200%Z (Some [ failedRecord; failedRecord ]) [] loadedDistribution
      = Some d'
    ∧ sum_list (map assignedCount (agents d')) = 11
    ∧ totalRecords d' = 9.
Proof.
  destruct (redistributeTasks_conserves 200%Z [ failedRecord; failedRecord ] []
              loadedDistribution)
    as (d' & Hd' & _ & Hcount & _ & _ & _ & Htotal & _); [done|done|].
  exists d'. split; [exact Hd'|]. split; [exact Hcount|exact Htotal].
Defined.

(** X15. [redistributeTasks] fails exactly when there is a task to
    hand out and the distribution has no group; without tasks ([null]
    or the empty list) it returns the distribution it was given. *)
Theorem redistributeTasks_fails_iff (now : Time) (failedTasks : option (list Rec))
    (availableAgents : list Agent) (d : Distribution) :
  (redistributeTasks now failedTasks availableAgents d = None
   ↔ ∃ tasks, failedTasks = Some tasks ∧ tasks ≠ [] ∧ agents d = [])
  ∧ (failedTasks = None ∨ failedTasks = Some [] →
     redistributeTasks now failedTasks availableAgents d = Some d).
Proof.
  split.
  - split.
    + intros Hnone. destruct failedTasks as [[|t0 tasks]|]; [done| |done].
      exists (t0 :: tasks). split; [done|]. split; [done|].
      destruct (agents d) as [|g gs] eqn:E; [done|].
      assert (agents d ≠ []) as Hne by (by rewrite E).
      by rewrite (redistributeTasks_closed now (t0 :: tasks) availableAgents d)
        in Hnone.
    + intros (tasks & -> & Htasks & Hnil). destruct tasks as [|t0 tasks]; [done|].
      unfold redistributeTasks. rewrite Hnil. done.
  - by intros [->| ->].
Qed.

(** ** Status updates: rejections, frame, repetition *)

Lemma findGroup_None (user : ObjectId) (groups : list Group) :
  findGroup user groups = None ↔ Forall (λ g, agentId g ≠ user) groups.
Proof.
  induction groups as [|g rest IH]; simpl; [by split|].
  destruct (Nat.eqb_spec (agentId g) user) as [Heq|Hne].
  - split; [done|]. intros H. by apply Forall_cons in H as [? _].
  - destruct (findGroup user rest) as [[j found]|]; simpl.
    + split; [done|]. intros H. apply Forall_cons in H as [_ H].
      by apply IH in H.
    + split; [|done]. intros _. apply Forall_cons. split; [done|]. by apply IH.
Qed.

Lemma rev_app_length (s acc : string) :
  String.length (String.rev_app s acc) = String.length s + String.length acc.
Proof.
  revert acc. induction s as [|c s IH]; intros acc; simpl; [done|].
  rewrite IH. simpl. lia.
Qed.

Lemma rev_length (s : string) : String.length (String.rev s) = String.length s.
Proof. unfold String.rev. rewrite rev_app_length. simpl. lia. Qed.

Lemma trimStart_length (s : string) : String.length (trimStart s) ≤ String.length s.
Proof.
  induction s as [|c s IH]; simpl; [done|].
  destruct (isWhiteSpace c); simpl; lia.
Qed.

Lemma trim_length (s : string) : String.length (trim s) ≤ String.length s.
Proof.
  unfold trim. rewrite rev_length.
  etransitivity; [apply trimStart_length|]. rewrite rev_length.
  apply trimStart_length.
Qed.

Lemma newNotes_setStatus (now : Time) (status' : Status) (notes' : option string)
    (record : Rec) :
  newNotes notes' (setStatus now status' notes' record) = newNotes notes' record.
Proof. by destruct notes' as [[|c s]|]. Qed.

Lemma setStatus_again (now later : Time) (status' : Status)
    (notes' : option string) (record : Rec) :
  status' ≠ completed →
  setStatus later status' notes' (setStatus now status' notes' record)
  = setStatus now status' notes' record.
Proof.
  intros Hs. unfold setStatus at 1. rewrite newNotes_setStatus.
  unfold setStatus. cbn [firstName phone status assignedAt completedAt redistributed].
  destruct (decide (status' = completed)); [done|]. reflexivity.
Qed.

(** What the handler answers, case by case. *)
Lemma updateRecordStatus_cases (now : Time) (db : Db) (user id : ObjectId)
    (recordIdx : Z) (status' : Status) (notes' : option string) :
  (distributions db !! id = None
   ∧ updateRecordStatus now db user id recordIdx status' notes'
     = (Json 404 "Distribution not found", db))
  ∨ (∃ d, distributions db !! id = Some d
     ∧ ((findGroup user (agents d) = None
         ∧ updateRecordStatus now db user id recordIdx status' notes'
           = (Json 403 "You are not assigned to this distribution", db))
        ∨ ∃ groupIdx g, findGroup user (agents d) = Some (groupIdx, g)
          ∧ (((recordIdx < 0 ∨ Z.of_nat (length (records g)) <= recordIdx)%Z
              ∧ updateRecordStatus now db user id recordIdx status' notes'
                = (Json 400 "Invalid record index", db))
             ∨ ∃ idx record,
                 recordIdx = Z.of_nat idx ∧ records g !! idx = Some record
                 ∧ ((notesValid (setStatus now status' notes' record) = false
                     ∧ updateRecordStatus now db user id recordIdx status' notes'
                       = (ValidationError, db))
                    ∨ (notesValid (setStatus now status' notes' record) = true
                       ∧ updateRecordStatus now db user id recordIdx status' notes'
                         = (Json 200 "Record status updated successfully",
                            {| users := updatedUsers db user (status record) status';
                               distributions :=
                                 <[id := updatedDistribution now d groupIdx g idx
                                           status' notes' record]>
                                   (distributions db) |})))))).
Proof.
  destruct (distributions db !! id) as [d|] eqn:Hd.
  2:{ left. split; [done|]. unfold updateRecordStatus. by rewrite Hd. }
  right. exists d. split; [done|].
  destruct (findGroup user (agents d)) as [[groupIdx g]|] eqn:Hg.
  2:{ left. split; [done|]. unfold updateRecordStatus. by rewrite Hd, Hg. }
  right. exists groupIdx, g. split; [done|].
  destruct (decide (recordIdx < 0 ∨ Z.of_nat (length (records g)) <= recordIdx)%Z)
    as [Hout|Hin].
  { left. split; [done|]. unfold updateRecordStatus. rewrite Hd, Hg.
    destruct (Z.ltb_spec recordIdx 0); [done|].
    destruct (Z.leb_spec (Z.of_nat (length (records g))) recordIdx); [done|lia]. }
  right.
  assert (Z.to_nat recordIdx < length (records g)) as Hlt by lia.
  destruct (lookup_lt_is_Some_2 _ _ Hlt) as [record Hrec].
  exists (Z.to_nat recordIdx), record.
  split; [lia|]. split; [done|].
  destruct (notesValid (setStatus now status' notes' record)) eqn:Hvalid.
  - right. split; [done|].
    replace recordIdx with (Z.of_nat (Z.to_nat recordIdx)) at 1 by lia.
    by apply updateRecordStatus_ok.
  - left. split; [done|]. unfold updateRecordStatus. rewrite Hd, Hg.
    destruct (Z.ltb_spec recordIdx 0); [lia|].
    destruct (Z.leb_spec (Z.of_nat (length (records g))) recordIdx); [lia|].
    simpl. by rewrite Hrec, Hvalid.
Qed.

(** X16. A status update that is not answered with 200 writes
    nothing. It is answered 404 exactly when no distribution has the id,
    403 exactly when the distribution exists and none of its groups
    belongs to the caller, and 400 exactly when the caller has a group
    and the index is negative or not below the number of its records. *)
Theorem updateRecordStatus_rejections (now : Time) (db : Db) (user id : ObjectId)
    (recordIdx : Z) (status' : Status) (notes' : option string) :
  let answer := updateRecordStatus now db user id recordIdx status' notes' in
  (answer.1 ≠ Json 200 "Record status updated successfully" → answer.2 = db)
  ∧ (answer.1 = Json 404 "Distribution not found"
     ↔ distributions db !! id = None)
  ∧ (answer.1 = Json 403 "You are not assigned to this distribution"
     ↔ ∃ d, distributions db !! id = Some d
            ∧ Forall (λ g, agentId g ≠ user) (agents d))
  ∧ (answer.1 = Json 400 "Invalid record index"
     ↔ ∃ d groupIdx g,
         distributions db !! id = Some d
         ∧ findGroup user (agents d) = Some (groupIdx, g)
         ∧ (recordIdx < 0 ∨ Z.of_nat (length (records g)) <= recordIdx)%Z).
Proof.
  cbv zeta.
  destruct (updateRecordStatus_cases now db user id recordIdx status' notes')
    as [[Hd ->]|(d & Hd & [[Hg ->]|(groupIdx & g & Hg &
         [[Hout ->]|(idx & record & -> & Hrec & [[Hv ->]|[Hv ->]])])])];
    simpl.
  - split; [done|]. split; [done|]. split.
    + split; [done|]. intros (d & Hd' & _). congruence.
    + split; [done|]. intros (d & ? & ? & Hd' & _). congruence.
  - split; [done|]. split; [split; [done|congruence]|]. split.
    + split; [|done]. intros _. exists d. split; [done|]. by apply findGroup_None.
    + split; [done|]. intros (d' & ? & ? & Hd' & Hg' & _). congruence.
  - split; [done|]. split; [split; [done|congruence]|]. split.
    + split; [done|]. intros (d' & Hd' & Hall). apply findGroup_None in Hall.
      congruence.
    + split; [|done]. intros _. by exists d, groupIdx, g.
  - pose proof (lookup_lt_Some _ _ _ Hrec).
    split; [done|]. split; [split; [done|congruence]|]. split.
    + split; [done|]. intros (d' & Hd' & Hall). apply findGroup_None in Hall.
      congruence.
    + split; [done|]. intros (d' & ? & g' & Hd' & Hg' & Hout).
      assert (g' = g) as -> by congruence. lia.
  - pose proof (lookup_lt_Some _ _ _ Hrec).
    split; [done|]. split; [split; [done|congruence]|]. split.
    + split; [done|]. intros (d' & Hd' & Hall). apply findGroup_None in Hall.
      congruence.
    + split; [done|]. intros (d' & ? & g' & Hd' & Hg' & Hout).
      assert (g' = g) as -> by congruence. lia.
Qed.

(** X17. A status update never fails validation when the stored
    record's notes are within the schema's 500 characters and the notes
    sent are within the 500 characters of the route's validator: the
    trimmed text is no longer than the text. *)
Theorem updateRecordStatus_notes_valid (now : Time) (db : Db) (user id : ObjectId)
    (recordIdx : Z) (status' : Status) (notes' : option string) :
  (∀ d g r, distributions db !! id = Some d → g ∈ agents d → r ∈ records g →
            notesValid r = true) →
  (∀ s, notes' = Some s → String.length s ≤ 500) →
  (updateRecordStatus now db user id recordIdx status' notes').1 ≠ ValidationError.
Proof.
  intros Hstored Hsent.
  destruct (updateRecordStatus_cases now db user id recordIdx status' notes')
    as [[Hd ->]|(d & Hd & [[Hg ->]|(groupIdx & g & Hg &
         [[Hout ->]|(idx & record & -> & Hrec & [[Hv ->]|[Hv ->]])])])];
    simpl; try done.
  exfalso. apply findGroup_Some in Hg as [Hg _].
  assert (notesValid record = true) as Hold.
  { apply (Hstored d g record Hd); by eapply list_elem_of_lookup_2. }
  destruct notes' as [[|c s]|];
    [unfold notesValid in *; simpl in Hv; congruence| |
     unfold notesValid in *; simpl in Hv; congruence].
  unfold notesValid, setStatus, newNotes in Hv. simpl in Hv.
  apply Nat.leb_gt in Hv. pose proof (trim_length (String c s)).
  specialize (Hsent _ eq_refl). lia.
Qed.

Lemma updateRecordStatus_notes_valid_witness :
  (updateRecordStatus 200%Z sampleDb 1 7 0 completed (Some "  called back  ")).1
  ≠ ValidationError.
Proof.
  apply updateRecordStatus_notes_valid.
  - intros d g r Hd Hg Hr. vm_compute in Hd. injection Hd as <-.
    apply list_elem_of_In in Hg. destruct Hg as [<-|[]].
    apply list_elem_of_In in Hr. simpl in Hr.
    destruct Hr as [<-|[<-|[<-|[<-|[]]]]]; reflexivity.
  - intros s [= <-]. vm_compute. lia.
Defined.

(** X18. The frame of a successful status update: every other
    distribution, every other group of the distribution and every other
    record of the caller's group is left as it was; the group keeps its
    agent, its [assignedCount] and its number of records; the record
    keeps its name, phone, assignment time and redistribution mark; the
    distribution keeps its file name, [totalRecords], uploader and
    strategy. *)
Theorem updateRecordStatus_frame (now : Time) (db db' : Db) (user id : ObjectId)
    (recordIdx : Z) (status' : Status) (notes' : option string) :
  updateRecordStatus now db user id recordIdx status' notes'
  = (Json 200 "Record status updated successfully", db') →
  ∃ d d' groupIdx g g' record record',
    distributions db !! id = Some d
    ∧ distributions db' !! id = Some d'
    ∧ findGroup user (agents d) = Some (groupIdx, g)
    ∧ agents d' !! groupIdx = Some g'
    ∧ records g !! Z.to_nat recordIdx = Some record
    ∧ records g' !! Z.to_nat recordIdx = Some record'
    ∧ (∀ other, other ≠ id → distributions db' !! other = distributions db !! other)
    ∧ (∀ j, j ≠ groupIdx → agents d' !! j = agents d !! j)
    ∧ length (agents d') = length (agents d)
    ∧ (∀ i, i ≠ Z.to_nat recordIdx → records g' !! i = records g !! i)
    ∧ length (records g') = length (records g)
    ∧ agentId g' = agentId g
    ∧ assignedCount g' = assignedCount g
    ∧ firstName record' = firstName record
    ∧ phone record' = phone record
    ∧ assignedAt record' = assignedAt record
    ∧ redistributed record' = redistributed record
    ∧ fileName d' = fileName d
    ∧ totalRecords d' = totalRecords d
    ∧ uploadedBy d' = uploadedBy d
    ∧ distributionStrategy d' = distributionStrategy d.
Proof.
  destruct (updateRecordStatus_cases now db user id recordIdx status' notes')
    as [[Hd ->]|(d & Hd & [[Hg ->]|(groupIdx & g & Hg &
         [[Hout ->]|(idx & record & -> & Hrec & [[Hv ->]|[Hv ->]])])])];
    try done.
  intros [= <-]. cbn [distributions users]. rewrite Nat2Z.id.
  pose proof (findGroup_Some _ _ _ _ Hg) as [Hlookup _].
  pose proof (lookup_lt_Some _ _ _ Hlookup) as Hgi.
  pose proof (lookup_lt_Some _ _ _ Hrec) as Hri.
  set (record' := setStatus now status' notes' record).
  set (g' := withRecords (<[idx := record']> (records g)) g).
  exists d, (updatedDistribution now d groupIdx g idx status' notes' record),
    groupIdx, g, g', record, record'.
  assert (agents (updatedDistribution now d groupIdx g idx status' notes' record)
          = <[groupIdx := g']> (agents d)) as Hagents.
  { unfold updatedDistribution. by rewrite preSave_agents. }
  rewrite Hagents.
  split; [done|]. split; [by rewrite lookup_insert_eq|]. split; [done|].
  split; [by rewrite list_lookup_insert_eq|]. split; [done|].
  split; [by apply list_lookup_insert_eq|].
  split; [intros other Hother; by rewrite lookup_insert_ne|].
  split; [intros j Hj; by rewrite list_lookup_insert_ne|].
  split; [by rewrite length_insert|].
  split; [intros i Hi; simpl; by rewrite list_lookup_insert_ne|].
  split; [simpl; by rewrite length_insert|].
  repeat (split; [done|]).
  unfold updatedDistribution.
  set (d1 := withAgents _ d).
  assert (fileName (preSave d1) = fileName d1
          ∧ uploadedBy (preSave d1) = uploadedBy d1
          ∧ distributionStrategy (preSave d1) = distributionStrategy d1)
    as (-> & -> & ->).
  { unfold preSave. by destruct (agents d1). }
  rewrite preSave_totalRecords. done.
Qed.

Lemma updateRecordStatus_frame_witness :
  ∃ d d' groupIdx g g',
    distributions sampleDb !! (7 : ObjectId) = Some d
    ∧ findGroup 1 (agents d) = Some (groupIdx, g)
    ∧ agents d' !! groupIdx = Some g'
    ∧ records g' !! 1 = records g !! 1
    ∧ assignedCount g' = assignedCount g.
Proof.
  destruct (updateRecordStatus_frame 200%Z sampleDb
              (updateRecordStatus 200%Z sampleDb 1 7 0 completed None).2
              1 7 0 completed None)
    as (d & d' & groupIdx & g & g' & record & record' & Hd & _ & Hg & Hg' & _ & _
        & _ & _ & _ & Hother & _ & _ & Hcount & _); [reflexivity|].
  exists d, d', groupIdx, g, g'.
  split; [exact Hd|]. split; [exact Hg|]. split; [exact Hg'|].
  split; [apply Hother; simpl; lia|exact Hcount].
Defined.

(** X19. Sending the same status update a second time succeeds
    and leaves every counter as the first update left it; when the
    status is not [completed] the second update changes nothing at
    all. *)
Theorem updateRecordStatus_repeated (now later : Time) (db db' : Db)
    (user id : ObjectId) (recordIdx : Z) (status' : Status)
    (notes' : option string) :
  updateRecordStatus now db user id recordIdx status' notes'
  = (Json 200 "Record status updated successfully", db') →
  ∃ db'',
    updateRecordStatus later db' user id recordIdx status' notes'
    = (Json 200 "Record status updated successfully", db'')
    ∧ users db'' = users db'
    ∧ (status' ≠ completed → db'' = db').
Proof.
  destruct (updateRecordStatus_cases now db user id recordIdx status' notes')
    as [[Hd ->]|(d & Hd & [[Hg ->]|(groupIdx & g & Hg &
         [[Hout ->]|(idx & record & -> & Hrec & [[Hv ->]|[Hv ->]])])])];
    try done.
  intros [= <-].
  set (record' := setStatus now status' notes' record).
  set (d' := updatedDistribution now d groupIdx g idx status' notes' record).
  set (db' := {| users := _; distributions := _ |}).
  destruct (updatedDistribution_lookup now d user groupIdx g idx status' notes'
              record Hg Hrec) as [Hg' Hrec']. cbv zeta in Hg', Hrec'.
  fold d' in Hg'. fold record' in Hg', Hrec'.
  set (g' := withRecords (<[idx := record']> (records g)) g) in *.
  assert (distributions db' !! id = Some d') as Hd'
    by (unfold db'; simpl; by rewrite lookup_insert_eq).
  assert (notesValid (setStatus later status' notes' record') = true) as Hv'.
  { unfold notesValid, setStatus. cbn [notes]. unfold record'.
    rewrite newNotes_setStatus. exact Hv. }
  rewrite (updateRecordStatus_ok later db' user id idx status' notes' d' groupIdx
             g' record' Hd' Hg' Hrec' Hv').
  eexists. split; [reflexivity|]. cbn [users distributions].
  assert (status record' = status') as Hs by done.
  assert (updatedUsers db' user (status record') status' = users db') as Husers.
  { unfold updatedUsers. rewrite Hs.
    destruct (decide (status' ≠ completed ∧ status' = completed)) as [[? ?]|_];
      [done|].
    destruct (decide (status' = completed ∧ status' ≠ completed)) as [[? ?]|_];
      done. }
  split; [exact Husers|].
  intros Hne. rewrite Husers. unfold db' at 2. f_equal.
  assert (updatedDistribution later d' groupIdx g' idx status' notes' record' = d')
    as ->.
  { unfold updatedDistribution.
    assert (setStatus later status' notes' record' = record') as ->
      by (by apply setStatus_again).
    assert (withRecords (<[idx := record']> (records g')) g' = g') as ->.
    { unfold g', withRecords. simpl. f_equal. apply list_insert_id.
      by apply list_lookup_insert_eq, (lookup_lt_Some _ _ _ Hrec). }
    apply findGroup_Some in Hg' as [Hg' _].
    rewrite list_insert_id by done.
    assert (withAgents (agents d') d' = d') as -> by (by destruct d').
    apply preSave_idemp. }
  unfold db'. cbn [distributions]. by rewrite insert_insert_eq.
Qed.

Lemma updateRecordStatus_repeated_witness :
  ∃ db' db'',
    updateRecordStatus 200%Z sampleDb 1 7 0 completed None
    = (Json 200 "Record status updated successfully", db')
    ∧ updateRecordStatus 300%Z db' 1 7 0 completed None
      = (Json 200 "Record status updated successfully", db'')
    ∧ users db'' = users db'.
Proof.
  destruct (updateRecordStatus_repeated 200%Z 300%Z sampleDb
              (updateRecordStatus 200%Z sampleDb 1 7 0 completed None).2
              1 7 0 completed None)
    as (db'' & Hsecond & Husers & _); [reflexivity|].
  eexists _, db''. split; [reflexivity|]. split; [exact Hsecond|exact Husers].
Defined.

(** ** The user counters and the stored distributions *)

Lemma totalOver_comm (count : Distribution → nat) (j1 j2 : ObjectId)
    (z1 z2 : Distribution) (y : nat) :
  count z1 + (count z2 + y) = count z2 + (count z1 + y).
Proof. lia. Qed.

Lemma totalOver_insert (count : Distribution → nat) (ds : gmap ObjectId Distribution)
    (id : ObjectId) (d : Distribution) :
  ds !! id = None → totalOver count (<[id := d]> ds) = count d + totalOver count ds.
Proof.
  intros Hid. unfold totalOver.
  rewrite map_fold_insert_L; [done| |done].
  intros. apply totalOver_comm; done.
Qed.

Lemma totalOver_delete (count : Distribution → nat) (ds : gmap ObjectId Distribution)
    (id : ObjectId) (d : Distribution) :
  ds !! id = Some d → totalOver count ds = count d + totalOver count (delete id ds).
Proof.
  intros Hid. unfold totalOver.
  rewrite (map_fold_delete_L _ _ id d); [done| |done].
  intros. apply totalOver_comm; done.
Qed.

Lemma totalOver_replace (count : Distribution → nat) (ds : gmap ObjectId Distribution)
    (id : ObjectId) (d d' : Distribution) :
  ds !! id = Some d →
  totalOver count (<[id := d']> ds) + count d = totalOver count ds + count d'.
Proof.
  intros Hid. rewrite <- insert_delete_eq.
  rewrite totalOver_insert by apply lookup_delete_eq.
  rewrite (totalOver_delete count ds id d Hid). lia.
Qed.

Lemma groupsOf_insert_other (uid : ObjectId) (groups : list Group) (i : nat)
    (g g' : Group) :
  groups !! i = Some g → agentId g' = agentId g → agentId g ≠ uid →
  groupsOf uid (<[i := g']> groups) = groupsOf uid groups.
Proof.
  unfold groupsOf. revert i.
  induction groups as [|g0 rest IH]; intros [|i]; simpl; try done.
  - intros [= ->] Hid Hne. rewrite Hid.
    by destruct (Nat.eqb_spec (agentId g) uid).
  - intros Hi Hid Hne. rewrite (IH i Hi Hid Hne). done.
Qed.

Lemma sum_groupsOf_insert (count : Group → nat) (uid : ObjectId)
    (groups : list Group) (i : nat) (g g' : Group) :
  groups !! i = Some g → agentId g' = agentId g → agentId g = uid →
  sum_list (map count (groupsOf uid (<[i := g']> groups))) + count g
  = sum_list (map count (groupsOf uid groups)) + count g'.
Proof.
  unfold groupsOf. revert i.
  induction groups as [|g0 rest IH]; intros [|i]; simpl; try done.
  - intros [= ->] Hid Heq. rewrite Hid, Heq, Nat.eqb_refl. simpl. lia.
  - intros Hi Hid Heq. specialize (IH i Hi Hid Heq).
    destruct (agentId g0 =? uid); simpl; lia.
Qed.

Lemma countStatus_insert (s : Status) (rs : list Rec) (i : nat) (r r' : Rec) :
  rs !! i = Some r →
  countStatus s (<[i := r']> rs) + (if decide (status r = s) then 1 else 0)
  = countStatus s rs + (if decide (status r' = s) then 1 else 0).
Proof.
  unfold countStatus. revert i.
  induction rs as [|r0 rest IH]; intros [|i]; simpl; try done.
  - intros [= ->].
    repeat case_bool_decide; repeat case_decide; simpl; (done || lia).
  - intros Hi. specialize (IH i Hi).
    destruct (bool_decide (status r0 = s)); simpl; lia.
Qed.

Lemma completedCount_countStatus (g : Group) :
  completedCount g = countStatus completed (records g).
Proof. done. Qed.

Lemma lookup_updatedUsers (db : Db) (user uid : ObjectId) (old new : Status) :
  updatedUsers db user old new !! uid
  = (if decide (uid = user)
     then incTasks 0 ((if decide (new = completed) then 1 else 0)
                      - (if decide (old = completed) then 1 else 0))
     else λ u, u) <$> users db !! uid.
Proof.
  unfold updatedUsers, findByIdAndUpdate.
  destruct (decide (uid = user)) as [->|Hne].
  - destruct (decide (old = completed)), (decide (new = completed));
      repeat (match goal with
              | |- context [decide (?P ∧ ?Q)] =>
                  destruct (decide (P ∧ Q)) as [[? ?]|?]
              end; try tauto);
      rewrite ?lookup_alter_eq; try done;
      destruct (users db !! user) as [u|]; simpl; try done;
      by rewrite incTasks_0.
  - repeat (match goal with
            | |- context [decide (?P ∧ ?Q)] => destruct (decide (P ∧ Q))
            end);
      rewrite ?lookup_alter_ne by done;
      by destruct (users db !! uid).
Qed.

(** X20. The handlers keep the counters in step with the stored
    distributions: when every user's [assignedTasks] is the sum of the
    [assignedCount]s of the user's groups and [completedTasks] is the
    number of completed records in them, the same holds after any status
    update, whatever its answer, and after any deletion. *)
Theorem handlers_keep_counters_sound (now : Time) (db : Db) (user id : ObjectId)
    (recordIdx : Z) (status' : Status) (notes' : option string) :
  countersSound db →
  countersSound (updateRecordStatus now db user id recordIdx status' notes').2
  ∧ countersSound (deleteDistribution db id).2.
Proof.
  intros Hsound. split.
  - destruct (updateRecordStatus_cases now db user id recordIdx status' notes')
      as [[Hd ->]|(d & Hd & [[Hg ->]|(groupIdx & g & Hg &
           [[Hout ->]|(idx & record & -> & Hrec & [[Hv ->]|[Hv ->]])])])];
      try exact Hsound.
    cbn [snd]. intros uid u'. cbn [users distributions].
    rewrite lookup_updatedUsers. intros Hu'.
    destruct (users db !! uid) as [u|] eqn:Hu; [|done]. simpl in Hu'.
    injection Hu' as <-. destruct (Hsound uid u Hu) as [Ha Hc].
    pose proof (findGroup_Some _ _ _ _ Hg) as [Hlookup Hagent].
    set (record' := setStatus now status' notes' record).
    set (g' := withRecords (<[idx := record']> (records g)) g).
    set (d' := updatedDistribution now d groupIdx g idx status' notes' record).
    assert (agents d' = <[groupIdx := g']> (agents d)) as Hagents.
    { unfold d', updatedDistribution. by rewrite preSave_agents. }
    pose proof (totalOver_replace (assignedIn uid) _ id d d' Hd) as Hta.
    pose proof (totalOver_replace (completedIn uid) _ id d d' Hd) as Htc.
    unfold assignedIn, completedIn, releasedAssigned, releasedCompleted in Hta, Htc.
    rewrite Hagents in Hta, Htc.
    destruct (decide (uid = user)) as [->|Hne].
    + pose proof (sum_groupsOf_insert assignedCount user (agents d) groupIdx g g'
                    Hlookup eq_refl Hagent) as Hsa.
      pose proof (sum_groupsOf_insert completedCount user (agents d) groupIdx g g'
                    Hlookup eq_refl Hagent) as Hsc.
      pose proof (countStatus_insert completed (records g) idx record record' Hrec)
        as Hcs.
      rewrite !completedCount_countStatus in Hsc.
      change (records g') with (<[idx := record']> (records g)) in Hsc.
      change (assignedCount g') with (assignedCount g) in Hsa.
      change (status record') with status' in Hcs.
      simpl. split.
      * rewrite Ha. unfold assignedIn, releasedAssigned. lia.
      * rewrite Hc. unfold completedIn, releasedCompleted.
        destruct (decide (status' = completed)), (decide (status record = completed));
          lia.
    + assert (agentId g ≠ uid) as Hother by congruence.
      rewrite (groupsOf_insert_other uid (agents d) groupIdx g g' Hlookup eq_refl
                 Hother) in Hta, Htc.
      simpl. split.
      * rewrite Ha. unfold assignedIn, releasedAssigned. lia.
      * rewrite Hc. unfold completedIn, releasedCompleted. lia.
  - unfold deleteDistribution.
    destruct (distributions db !! id) as [d|] eqn:Hd; [|exact Hsound].
    cbn [snd]. intros uid u'. cbn [users distributions].
    rewrite foldl_releaseAgent_lookup. intros Hu'.
    destruct (users db !! uid) as [u|] eqn:Hu; [|done]. simpl in Hu'.
    injection Hu' as <-. destruct (Hsound uid u Hu) as [Ha Hc].
    pose proof (totalOver_delete (assignedIn uid) _ id d Hd) as Hta.
    pose proof (totalOver_delete (completedIn uid) _ id d Hd) as Htc.
    unfold assignedIn at 2 in Hta. unfold completedIn at 2 in Htc.
    simpl. split; lia.
Qed.

Lemma handlers_keep_counters_sound_witness :
  countersSound (updateRecordStatus 200%Z steadyDb 1 7 0 completed None).2
  ∧ countersSound (deleteDistribution steadyDb 7).2.
Proof.
  apply (handlers_keep_counters_sound 200%Z steadyDb 1 7 0 completed None).
  intros uid u Hu. unfold steadyDb in Hu. cbn [users] in Hu.
  apply lookup_singleton_Some in Hu as [<- <-].
  split; reflexivity.
Defined.

(** X21. Once a distribution is deleted it is gone: a second
    deletion and any status update on its id are answered 404 and write
    nothing, and every other distribution is still stored. *)
Theorem deleteDistribution_then_gone (db db' : Db) (id : ObjectId) :
  deleteDistribution db id = (Json 200 "Distribution deleted successfully", db') →
  distributions db' !! id = None
  ∧ (∀ other, other ≠ id → distributions db' !! other = distributions db !! other)
  ∧ deleteDistribution db' id = (Json 404 "Distribution not found", db')
  ∧ (∀ now user recordIdx status' notes',
       updateRecordStatus now db' user id recordIdx status' notes'
       = (Json 404 "Distribution not found", db')).
Proof.
  unfold deleteDistribution at 1.
  destruct (distributions db !! id) as [d|] eqn:Hd; [|done].
  intros [= <-]. cbn [distributions].
  split; [apply lookup_delete_eq|].
  split; [intros other Hother; by apply lookup_delete_ne|].
  split.
  - unfold deleteDistribution. cbn [distributions]. by rewrite lookup_delete_eq.
  - intros. unfold updateRecordStatus. cbn [distributions].
    by rewrite lookup_delete_eq.
Qed.

Lemma deleteDistribution_then_gone_witness :
  distributions (deleteDistribution sampleDb 7).2 !! (7 : ObjectId) = None.
Proof.
  apply (deleteDistribution_then_gone sampleDb (deleteDistribution sampleDb 7).2 7).
  reflexivity.
Defined.

(** ** Reading the records back *)

Lemma preSave_fileName (d : Distribution) : fileName (preSave d) = fileName d.
Proof. unfold preSave. by destruct (agents d). Qed.

(** X22. [getMyRecords] and the status update apply the same
    access rule and see the same records: where the read is refused
    the update is refused with the same answer; where it returns
    records, the four status counts add up to the total, the update
    rejects an index exactly when it is negative or not below that
    total, and after a successful update the read returns the same
    list with the one record replaced. *)
Theorem getMyRecords_agrees_with_update (db : Db) (user id : ObjectId) :
  match getMyRecords db user id with
  | MyRecordsJson code message =>
      ∀ now recordIdx status' notes',
        updateRecordStatus now db user id recordIdx status' notes'
        = (Json code message, db)
  | MyRecordsData id' file count rs counts =>
      id' = id
      ∧ n_total counts = length rs
      ∧ n_pending counts + n_inProgress counts + n_completed counts
        + n_failed counts = n_total counts
      ∧ (∀ now recordIdx status' notes',
           (updateRecordStatus now db user id recordIdx status' notes').1
           = Json 400 "Invalid record index"
           ↔ (recordIdx < 0 ∨ Z.of_nat (n_total counts) <= recordIdx)%Z)
      ∧ (∀ now idx status' notes' db',
           updateRecordStatus now db user id (Z.of_nat idx) status' notes'
           = (Json 200 "Record status updated successfully", db') →
           ∃ record,
             rs !! idx = Some record
             ∧ getMyRecords db' user id
               = MyRecordsData id file count
                   (<[idx := setStatus now status' notes' record]> rs)
                   (countRecords (<[idx := setStatus now status' notes' record]> rs)))
  end.
Proof.
  unfold getMyRecords.
  destruct (distributions db !! id) as [d|] eqn:Hd.
  2:{ intros. unfold updateRecordStatus. by rewrite Hd. }
  destruct (findGroup user (agents d)) as [[groupIdx g]|] eqn:Hg.
  2:{ intros. unfold updateRecordStatus. by rewrite Hd, Hg. }
  split; [done|]. split; [done|]. split.
  { simpl. pose proof (countStatus_split (records g)). lia. }
  split.
  - intros now recordIdx status' notes'. simpl.
    destruct (updateRecordStatus_cases now db user id recordIdx status' notes')
      as [[Hd' ->]|(d' & Hd' & [[Hg' ->]|(groupIdx' & g' & Hg' &
           [[Hout ->]|(idx & record & -> & Hrec & [[Hv ->]|[Hv ->]])])])];
      try congruence;
      assert (d' = d) as -> by congruence;
      assert (g' = g) as -> by congruence; simpl.
    + done.
    + pose proof (lookup_lt_Some _ _ _ Hrec). split; [done|lia].
    + pose proof (lookup_lt_Some _ _ _ Hrec). split; [done|lia].
  - intros now idx status' notes' db'.
    destruct (updateRecordStatus_cases now db user id (Z.of_nat idx) status' notes')
      as [[Hd' ->]|(d' & Hd' & [[Hg' ->]|(groupIdx' & g' & Hg' &
           [[Hout ->]|(idx' & record & Hidx & Hrec & [[Hv ->]|[Hv ->]])])])];
      try done.
    assert (d' = d) as -> by congruence.
    assert (g' = g ∧ groupIdx' = groupIdx) as [-> ->] by (split; congruence).
    apply Nat2Z.inj in Hidx as <-.
    intros [= <-]. exists record. split; [done|].
    cbn [distributions]. rewrite lookup_insert_eq.
    destruct (updatedDistribution_lookup now d user groupIdx g idx status' notes'
                record Hg Hrec) as [-> _].
    unfold updatedDistribution. by rewrite preSave_fileName.
Qed.

Lemma foldl_app_concat {A B} (f : A → list B) (l : list A) (acc : list B) :
  foldl (λ all x, all ++ f x) acc l = acc ++ concat (map f l).
Proof.
  revert acc. induction l as [|x l IH]; intros acc; simpl.
  - by rewrite app_nil_r.
  - by rewrite IH, <- app_assoc.
Qed.

Lemma findGroup_existsb (user : ObjectId) (groups : list Group) :
  existsb (λ agent, agentId agent =? user) groups = false →
  findGroup user groups = None.
Proof.
  induction groups as [|g rest IH]; simpl; [done|].
  destruct (agentId g =? user); simpl; [done|]. intros H. by rewrite IH.
Qed.

Lemma concat_filter_nil {A B} (f : A → list B) (keep : A → bool) (l : list A) :
  (∀ x, keep x = false → f x = []) →
  concat (map f (List.filter keep l)) = concat (map f l).
Proof.
  intros Hnil. induction l as [|x l IH]; simpl; [done|].
  destruct (keep x) eqn:E; simpl; rewrite IH; [done|].
  by rewrite (Hnil x E).
Qed.

Lemma allRecords_closed (db : Db) (user : ObjectId) :
  (getAllMyRecords db user).1
  = concat (map (recordsWithDistribution user) (map_to_list (distributions db))).
Proof.
  unfold getAllMyRecords, findAssigned. cbn [fst].
  rewrite foldl_app_concat. simpl. apply concat_filter_nil.
  intros entry Hno. unfold recordsWithDistribution.
  by rewrite (findGroup_existsb _ _ Hno).
Qed.

Lemma countNamed_app (name : string) (l l' : list TaggedRecord) :
  countNamed name (l ++ l') = countNamed name l + countNamed name l'.
Proof. unfold countNamed. by rewrite List.filter_app, length_app. Qed.

Lemma countNamed_split (l : list TaggedRecord) :
  countNamed "pending" l + countNamed "in-progress" l + countNamed "completed" l
  + countNamed "failed" l = length l
  ∧ countNamed "cancelled" l = 0.
Proof.
  unfold countNamed. induction l as [|r l [IH IH']]; simpl; [done|].
  destruct (status (t_record r)); simpl; split; (lia || done).
Qed.

Lemma countNamed_tagged (user : ObjectId) (entry : ObjectId * Distribution) :
  countNamed "completed" (recordsWithDistribution user entry)
  = match findGroup user (agents entry.2) with
    | Some (_, agentData) => completedCount agentData
    | None => 0
    end.
Proof.
  unfold recordsWithDistribution.
  destruct (findGroup user (agents entry.2)) as [[i g]|]; [|done].
  unfold countNamed, completedCount.
  induction (records g) as [|r rs IH]; simpl; [done|].
  destruct (status r); simpl; by rewrite ?IH.
Qed.

Lemma first_group_completed (user : ObjectId) (groups : list Group) :
  match findGroup user groups with
  | Some (_, agentData) => completedCount agentData
  | None => 0
  end ≤ releasedCompleted user groups
  ∧ (NoDup (map agentId groups) →
     match findGroup user groups with
     | Some (_, agentData) => completedCount agentData
     | None => 0
     end = releasedCompleted user groups).
Proof.
  destruct (findGroup user groups) as [[i g]|] eqn:Hg.
  - apply findGroup_Some in Hg as [Hi Hid]. split.
    + unfold releasedCompleted, groupsOf.
      revert i Hi. induction groups as [|g0 rest IH]; intros [|i]; simpl; try done.
      * intros [= ->]. rewrite Hid, Nat.eqb_refl. simpl. lia.
      * intros Hi. specialize (IH i Hi).
        destruct (agentId g0 =? user); simpl; lia.
    + intros Hnd. unfold releasedCompleted. rewrite <- Hid.
      rewrite (groupsOf_NoDup groups g Hnd) by (by eapply list_elem_of_lookup_2).
      simpl. lia.
  - apply findGroup_None in Hg. split; [lia|]. intros _.
    unfold releasedCompleted, groupsOf.
    induction Hg as [|g rest Hne _ IH]; simpl; [done|].
    by destruct (Nat.eqb_spec (agentId g) user).
Qed.

Lemma completed_shown_le (user : ObjectId) (entries : list (ObjectId * Distribution)) :
  countNamed "completed" (concat (map (recordsWithDistribution user) entries))
  ≤ foldr (uncurry (λ (_ : ObjectId) d total, completedIn user d + total)) 0 entries
  ∧ (Forall (λ entry, NoDup (map agentId (agents entry.2))) entries →
     countNamed "completed" (concat (map (recordsWithDistribution user) entries))
     = foldr (uncurry (λ (_ : ObjectId) d total, completedIn user d + total)) 0 entries).
Proof.
  induction entries as [|[id d] entries [IH IH']]; simpl; [done|].
  rewrite countNamed_app, countNamed_tagged. simpl.
  destruct (first_group_completed user (agents d)) as [Hle Heq].
  change (completedIn user d) with (releasedCompleted user (agents d)).
  split; [lia|].
  intros Hnd. apply Forall_cons in Hnd as [Hd Hnd]. simpl in Hd.
  rewrite (Heq Hd), (IH' Hnd). done.
Qed.

(** X23. In the answer of [getAllMyRecords] the counts of the
    four statuses add up to the total, which is the number of records
    returned, and the count of cancelled records is always 0. When the
    counters are in step with the stored distributions, the number of
    completed records shown to a user is at most the user's
    [completedTasks], and equal to it when no distribution has two
    groups of the same agent. *)
Theorem getAllMyRecords_counts (db : Db) (user : ObjectId) :
  let answer := getAllMyRecords db user in
  a_total answer.2 = length answer.1
  ∧ a_pending answer.2 + a_inProgress answer.2 + a_completed answer.2
    + a_failed answer.2 = a_total answer.2
  ∧ a_cancelled answer.2 = 0
  ∧ (∀ u, countersSound db → users db !! user = Some u →
       (Z.of_nat (a_completed answer.2) <= completedTasks u)%Z
       ∧ ((∀ id d, distributions db !! id = Some d →
                   NoDup (map agentId (agents d))) →
          completedTasks u = Z.of_nat (a_completed answer.2))).
Proof.
  cbv zeta.
  assert (a_completed (getAllMyRecords db user).2
          = countNamed "completed" (getAllMyRecords db user).1) as Hc by done.
  assert (a_total (getAllMyRecords db user).2
          = length (getAllMyRecords db user).1) as Ht by done.
  split; [done|]. split.
  { rewrite Ht. apply (countNamed_split (getAllMyRecords db user).1). }
  split; [apply (countNamed_split (getAllMyRecords db user).1)|].
  intros u Hsound Hu. destruct (Hsound user u Hu) as [_ ->].
  rewrite Hc, allRecords_closed. unfold totalOver. rewrite map_fold_foldr.
  destruct (completed_shown_le user (map_to_list (distributions db))) as [Hle Heq].
  split; [lia|]. intros Hnd. rewrite Heq; [done|].
  apply Forall_forall. intros [id d] Hin. simpl.
  apply (Hnd id), elem_of_map_to_list, Hin.
Qed.

(** X24. The model's method [updateRecordStatus] and the handler
    agree on the document: for an existing distribution and no notes,
    the method saves a document exactly when the handler answers 200,
    and it is the document the handler stores; the method fails
    validation exactly when the handler does; it throws [Record not
    found] exactly when the handler answers 403 or 400, and then the
    handler writes nothing. *)
Theorem method_agrees_with_handler (now : Time) (db : Db) (user id : ObjectId)
    (recordIdx : Z) (status' : Status) (d : Distribution) :
  distributions db !! id = Some d →
  let answer := updateRecordStatus now db user id recordIdx status' None in
  match Distribution_updateRecordStatus now d user recordIdx status' with
  | SavedDocument d' =>
      answer.1 = Json 200 "Record status updated successfully"
      ∧ distributions answer.2 !! id = Some d'
  | SaveInvalid => answer = (ValidationError, db)
  | Threw e =>
      e = Error "Record not found"
      ∧ answer.2 = db
      ∧ (answer.1 = Json 403 "You are not assigned to this distribution"
         ∨ answer.1 = Json 400 "Invalid record index")
  end.
Proof.
  intros Hd. cbv zeta. unfold Distribution_updateRecordStatus.
  destruct (updateRecordStatus_cases now db user id recordIdx status' None)
    as [[Hd' ->]|(d' & Hd' & [[Hg ->]|(groupIdx & g & Hg &
         [[Hout ->]|(idx & record & -> & Hrec & [[Hv ->]|[Hv ->]])])])];
    try congruence;
    assert (d' = d) as -> by congruence; rewrite Hg.
  - simpl. auto.
  - destruct (Z.ltb_spec recordIdx 0); [simpl; auto|].
    rewrite lookup_ge_None_2 by lia. simpl. auto.
  - destruct (Z.ltb_spec (Z.of_nat idx) 0); [lia|].
    rewrite Nat2Z.id, Hrec, Hv. done.
  - destruct (Z.ltb_spec (Z.of_nat idx) 0); [lia|].
    rewrite Nat2Z.id, Hrec, Hv. simpl. split; [done|].
    by rewrite lookup_insert_eq.
Qed.

Lemma method_agrees_with_handler_witness :
  ∃ d',
    Distribution_updateRecordStatus 200%Z sampleDistribution 1 0 completed
    = SavedDocument d'
    ∧ distributions (updateRecordStatus 200%Z sampleDb 1 7 0 completed None).2
      !! (7 : ObjectId) = Some d'.
Proof.
  pose proof (method_agrees_with_handler 200%Z sampleDb 1 7 0 completed
                sampleDistribution eq_refl) as H.
  cbv zeta in H.
  destruct (Distribution_updateRecordStatus 200%Z sampleDistribution 1 0 completed)
    as [d'| |e] eqn:E; [|discriminate E|discriminate E].
  exists d'. split; [reflexivity|]. exact (proj2 H).
Defined.

(** ** The virtuals and the agent performance *)





(** ** Strings: trimming *)















(** ** FileProcessor *)











(** ** Uploading a file *)



















